(** * ParallaxGallery

    A shallow embedding of [src/components/ParallaxGallery.tsx].

    The component keeps four pieces of state ([visibleItems], [currentBgIndex],
    [isLoading], [scrollY]) and reacts to scroll notifications, to the
    intersection observer of the sentinel element and to two kinds of timers.
    Every handler of the source is a function below; the host environment
    (clock, window metrics, timers) is passed in explicitly.

    Number model.  A finite double is the rational it denotes: pixel
    quantities that the browser reports as doubles ([window.scrollY]) are in
    [Q], integral ones ([window.innerHeight], [scrollHeight], lengths,
    [Date.now()]) in [Z] or [nat].  The division and the product of the
    background selection round to binary64 ([round64]); the trim count is
    computed on the exact values. *)

From Stdlib Require Import String Ascii Bool Arith ZArith QArith Qround Lia.
From Stdlib Require Import DecimalString DecimalNat List FinFun Sorted.
From Stdlib Require Import Permutation Lqa.
Import ListNotations.

Local Close Scope Q_scope.
Local Open Scope string_scope.
Local Open Scope list_scope.

(** ** Data model (lines 14-60) *)

Record GalleryItem := mkGalleryItem {
  id : string;
  image : string;
  title : string;
  author : string;
  date : string;
  description : string
}.

Record BackgroundImage := mkBackgroundImage {
  bg_id : string;
  bg_image : string;
  bg_name : string
}.

Definition backgroundImages : list BackgroundImage :=
  [ mkBackgroundImage "bg1" "@/assets/bg-mountain-sunset.jpg" "Mountain Sunset";
    mkBackgroundImage "bg2" "@/assets/bg-forest-mist.jpg" "Forest Mist";
    mkBackgroundImage "bg3" "@/assets/bg-ocean-cliffs.jpg" "Ocean Cliffs" ].

Definition galleryItems : list GalleryItem :=
  [ mkGalleryItem "1" "@/assets/waterfall-tropical.jpg" "Tropical Paradise"
      "Nature Explorer" "2024-01-15"
      "A stunning waterfall hidden in the heart of a tropical forest, where crystal clear water cascades through lush vegetation.";
    mkGalleryItem "2" "@/assets/mountain-peak.jpg" "Alpine Majesty"
      "Mountain Photographer" "2024-01-20"
      "The raw beauty of snow-capped peaks reaching toward the heavens, captured in perfect morning light.";
    mkGalleryItem "3" "@/assets/flower-field.jpg" "Wildflower Dreams"
      "Botanical Artist" "2024-01-25"
      "A meadow alive with vibrant wildflowers, painting the landscape in nature's most beautiful colors." ].

(** Decimal rendering of a non-negative integer inside a template literal. *)
Definition string_of_nat (n : nat) : string :=
  NilEmpty.string_of_uint (Nat.to_uint n).

(** ** Pagination batch (lines 110-125)

    The updater passed to [setVisibleItems] by the timer callback of
    [loadMoreItems].  Reading [galleryItems[sourceIndex].id] of a missing
    element raises a TypeError: [None]. *)

Definition itemsPerLoad : nat := 3.

(** [{...src, id: `${src.id}-${n}`}] *)
Definition withSuffixedId (src : GalleryItem) (n : nat) : GalleryItem :=
  {| id := id src ++ "-" ++ string_of_nat n;
     image := image src;
     title := title src;
     author := author src;
     date := date src;
     description := description src |}.

(** The [for] loop: [i] is the loop counter, [todo] the iterations left. *)
Fixpoint pushItems (currentLength i todo : nat) (newItems : list GalleryItem)
  : option (list GalleryItem) :=
  match todo with
  | O => Some newItems
  | S todo' =>
      let sourceIndex := (currentLength + i) mod length galleryItems in
      match nth_error galleryItems sourceIndex with
      | None => None
      | Some src =>
          pushItems currentLength (S i) todo'
            (newItems ++ [withSuffixedId src (currentLength + i)])
      end
  end.

Definition appendBatch (prev : list GalleryItem) : option (list GalleryItem) :=
  let currentLength := length prev in
  match pushItems currentLength 0 itemsPerLoad [] with
  | None => None
  | Some newItems => Some (prev ++ newItems)
  end.

(** [e] is [src] with its id replaced by [newId]. *)
Definition copy_with_id (src : GalleryItem) (newId : string) (e : GalleryItem)
  : Prop :=
  id e = newId /\ image e = image src /\ title e = title src
  /\ author e = author src /\ date e = date src
  /\ description e = description src.

(** [galleryItems.slice(0, 3)], the state set by the mount effect (line 73). *)
Definition initialItems : list GalleryItem := firstn 3 galleryItems.

(** ** Window metrics read by the handlers *)

Record Viewport := mkViewport {
  win_scrollY : Q;        (* window.scrollY *)
  win_innerHeight : Z;    (* window.innerHeight *)
  doc_scrollHeight : Z    (* document.documentElement.scrollHeight *)
}.

(** [arr[i]] for a numeric index: [undefined] outside the array. *)
Definition js_index {A : Type} (arr : list A) (i : Z) : option A :=
  if (i <? 0)%Z then None else nth_error arr (Z.to_nat i).

Definition truthy {A : Type} (o : option A) : bool :=
  match o with Some _ => true | None => false end.

(** ** Background selection (lines 87-100)

    The body of the effect, over an arbitrary background list.  The result is
    the argument of the call to [setCurrentBgIndex], or [None] when the effect
    returns without calling it. *)

(** *** binary64 arithmetic

    An arithmetic operation on doubles returns its exact result rounded to
    the nearest double, ties to the even significand.  Results beyond the
    largest double are not cut to an infinity: [Math.floor], [Math.min] and
    [Math.max] treat an infinity like any value of its sign, so the clamped
    index is the same. *)

(** The nearest integer, ties to the even one. *)
Definition half_even (q : Q) : Z :=
  let f := Qfloor q in
  match (q - inject_Z f ?= 1 # 2)%Q with
  | Lt => f
  | Gt => (f + 1)%Z
  | Eq => if Z.even f then f else (f + 1)%Z
  end.

(** For [x >= 0] counted in units of 2^-1074, the smallest positive double:
    the exponent of the spacing of the doubles around [x].  It is 0 for the
    subnormal numbers and the first binade, and grows by one per binade, so
    that 53 bits are kept. *)
Definition spacing (x : Q) : Z := Z.max 0 (Z.log2 (Qfloor x) - 52).

Definition round_scaled (x : Q) : Z :=
  (half_even (x / inject_Z (2 ^ spacing x)) * 2 ^ spacing x)%Z.

(** Round to nearest, ties to even, in binary64. *)
Definition round64 (q : Q) : Q :=
  let unit := inject_Z (2 ^ 1074) in
  match (q ?= 0)%Q with
  | Lt => (- (inject_Z (round_scaled (- q * unit)) / unit))%Q
  | _ => (inject_Z (round_scaled (q * unit)) / unit)%Q
  end.

(** Lines 93-95: [scrollHeight] is the difference computed on line 90, an
    integer like its two DOM operands. *)
Definition clampedIndex (n : nat) (scrollHeight : Z) (scrollY : Q) : Z :=
  let scrollProgress := round64 (scrollY / inject_Z scrollHeight)%Q in
  let newBgIndex :=
    Qfloor (round64 (scrollProgress * inject_Z (Z.of_nat n))%Q) in
  Z.max 0 (Z.min newBgIndex (Z.of_nat n - 1)).

(** Lines 93-95 again, over an arbitrary rounding [rnd] of each arithmetic
    operation. *)
Definition clampedIndexRounded (rnd : Q -> Q) (n : nat) (scrollHeight : Z)
    (scrollY : Q) : Z :=
  let scrollProgress := rnd (scrollY / inject_Z scrollHeight)%Q in
  let newBgIndex := Qfloor (rnd (scrollProgress * inject_Z (Z.of_nat n))%Q) in
  Z.max 0 (Z.min newBgIndex (Z.of_nat n - 1)).

Definition backgroundEffect (bgs : list BackgroundImage) (vp : Viewport)
    (scrollY : Q) (currentBgIndex : Z) : option Z :=
  if (List.length bgs =? 0)%nat then None
  else
    let scrollHeight := (doc_scrollHeight vp - win_innerHeight vp)%Z in
    if (scrollHeight <=? 0)%Z then None
    else
      let clamped := clampedIndex (List.length bgs) scrollHeight scrollY in
      if negb (clamped =? currentBgIndex)%Z && truthy (js_index bgs clamped)
      then Some clamped
      else None.

(** The value of [currentBgIndex] once the effect has run. *)
Definition selectBackground (bgs : list BackgroundImage) (vp : Viewport)
    (scrollY : Q) (currentBgIndex : Z) : Z :=
  match backgroundEffect bgs vp scrollY currentBgIndex with
  | Some idx => idx
  | None => currentBgIndex
  end.

(** ** Trim pass (lines 154-166) *)

(** [prev.slice(start)] for an integral [start >= 0]. *)
Definition slice_from {A : Type} (start : Z) (prev : list A) : list A :=
  skipn (Z.to_nat start) prev.

(** The updater of lines 160-164; [keepAfterScroll] is captured from the
    enclosing handler. *)
Definition trimUpdater (keepAfterScroll : Q) (prev : list GalleryItem)
  : list GalleryItem :=
  let itemHeight := 600%Z in
  let itemsToKeep := Qfloor (keepAfterScroll / inject_Z itemHeight)%Q in
  slice_from (Z.max 0 itemsToKeep) prev.

(** [handleMemoryOptimization]: [visibleLength] is [visibleItems.length] as the
    closure sees it.  The result is the updater handed to [setVisibleItems],
    or [None] when the guard of line 155 fails. *)
Definition handleMemoryOptimization (visibleLength : nat) (vp : Viewport)
  : option (list GalleryItem -> list GalleryItem) :=
  if (20 <? visibleLength)%nat then
    let viewportHeight := win_innerHeight vp in
    let scrollTop := win_scrollY vp in
    let keepAfterScroll := (scrollTop - inject_Z viewportHeight * 2)%Q in
    Some (trimUpdater keepAfterScroll)
  else None.

(** One trim pass on a list the closure is in sync with. *)
Definition trimPass (vp : Viewport) (items : list GalleryItem)
  : list GalleryItem :=
  match handleMemoryOptimization (List.length items) vp with
  | Some updater => updater items
  | None => items
  end.

(** ** The mounted component as a transition system

    [World] is the component state together with the host resources the
    component owns: the intersection observer, the scroll listeners and the
    timers created by [loadMoreItems].  A handler is a closure of the render
    that built it: the observer callback and the trim handler read the
    [isLoading] and the [visibleItems.length] of that render, not the current
    ones, until a re-render runs the effects again. *)

Record World := mkWorld {
  visibleItems : list GalleryItem;
  currentBgIndex : Z;
  isLoading : bool;
  scrollY : Q;
  mounted : bool;         (* scroll listeners registered *)
  observing : bool;       (* observerRef.current connected to the sentinel *)
  clock : Z;
  loadTimers : list Z;    (* due times of the pending [setTimeout] callbacks *)
  observerSees : bool;    (* [isLoading] closed over by the [loadMoreItems]
                             the connected observer calls *)
  trimSees : nat;         (* [visibleItems.length] closed over by the
                             registered [handleMemoryOptimization] *)
  staleTrimSees : list nat
                          (* the same for the handlers of earlier effect
                             runs: line 171 removes their listener but
                             leaves the timer of their throttle *)
}.

Definition loadDelay : Z := 500.

(** [useState] initial values followed by the mount effects and the
    re-render they cause: the handler of the first render, built over the
    empty list, has been replaced. *)
Definition mount (now : Z) : World :=
  {| visibleItems := initialItems;
     currentBgIndex := 0;
     isLoading := false;
     scrollY := 0%Q;
     mounted := true;
     observing := true;
     clock := now;
     loadTimers := [];
     observerSees := false;
     trimSees := List.length initialItems;
     staleTrimSees := [0%nat] |}.

Definition setVisibleItems (items : list GalleryItem) (w : World) : World :=
  {| visibleItems := items;
     currentBgIndex := currentBgIndex w;
     isLoading := isLoading w;
     scrollY := scrollY w;
     mounted := mounted w;
     observing := observing w;
     clock := clock w;
     loadTimers := loadTimers w;
     observerSees := observerSees w;
     trimSees := trimSees w;
     staleTrimSees := staleTrimSees w |}.

Definition setIsLoading (b : bool) (w : World) : World :=
  {| visibleItems := visibleItems w;
     currentBgIndex := currentBgIndex w;
     isLoading := b;
     scrollY := scrollY w;
     mounted := mounted w;
     observing := observing w;
     clock := clock w;
     loadTimers := loadTimers w;
     observerSees := observerSees w;
     trimSees := trimSees w;
     staleTrimSees := staleTrimSees w |}.

Definition setClockAndTimers (now : Z) (timers : list Z) (w : World) : World :=
  {| visibleItems := visibleItems w;
     currentBgIndex := currentBgIndex w;
     isLoading := isLoading w;
     scrollY := scrollY w;
     mounted := mounted w;
     observing := observing w;
     clock := now;
     loadTimers := timers;
     observerSees := observerSees w;
     trimSees := trimSees w;
     staleTrimSees := staleTrimSees w |}.

(** Lines 103-128 up to the call of [setTimeout]; [isLoadingSeen] is the
    [isLoading] the callback closes over. *)
Definition loadMoreItems (isLoadingSeen : bool) (w : World) : World :=
  if isLoadingSeen then w
  else
    setClockAndTimers (clock w) (loadTimers w ++ [(clock w + loadDelay)%Z])
      (setIsLoading true w).

(** The callback given to [setTimeout] (lines 109-127): both setter calls.
    An updater that throws would leave the list as it is; it never does
    (lemma [appendBatch_total]). *)
Definition loadTimerCallback (w : World) : World :=
  setIsLoading false
    (setVisibleItems
       match appendBatch (visibleItems w) with
       | Some items => items
       | None => visibleItems w
       end w).

(** Time passes: every timer that has become due runs its callback. *)
Definition elapse (d : nat) (w : World) : World :=
  let now := (clock w + Z.of_nat d)%Z in
  let due := filter (fun t => (t <=? now)%Z) (loadTimers w) in
  let later := filter (fun t => negb (t <=? now)%Z) (loadTimers w) in
  fold_left (fun w' _ => loadTimerCallback w') due
    (setClockAndTimers now later w).

(** The observer callback (lines 135-139).  The [loadMoreItems] it calls is
    the one of the render in which the effect of lines 131-150 last ran. *)
Definition onIntersection (isIntersecting : bool) (w : World) : World :=
  if observing w then
    if isIntersecting then loadMoreItems (observerSees w) w else w
  else w.

(** A re-render of the mounted component and the effects it runs: the
    observer is rebuilt around the new [loadMoreItems] (lines 131-150), and
    when the length has changed the scroll listener is replaced by a handler
    of this render (lines 153-172), the old one keeping its throttle
    timer. *)
Definition rerender (w : World) : World :=
  if mounted w then
    {| visibleItems := visibleItems w;
       currentBgIndex := currentBgIndex w;
       isLoading := isLoading w;
       scrollY := scrollY w;
       mounted := mounted w;
       observing := observing w;
       clock := clock w;
       loadTimers := loadTimers w;
       observerSees := isLoading w;
       trimSees := List.length (visibleItems w);
       staleTrimSees :=
         if (List.length (visibleItems w) =? trimSees w)%nat
         then staleTrimSees w
         else trimSees w :: staleTrimSees w |}
  else w.

(** [handleScroll] followed by the background effect (lines 78-100). *)
Definition onScroll (vp : Viewport) (w : World) : World :=
  if mounted w then
    {| visibleItems := visibleItems w;
       currentBgIndex :=
         selectBackground backgroundImages vp (win_scrollY vp)
           (currentBgIndex w);
       isLoading := isLoading w;
       scrollY := win_scrollY vp;
       mounted := mounted w;
       observing := observing w;
       clock := clock w;
       loadTimers := loadTimers w;
       observerSees := observerSees w;
       trimSees := trimSees w;
       staleTrimSees := staleTrimSees w |}
  else w.

(** One execution, by its throttle wrapper, of a [handleMemoryOptimization]
    that closed over the length [seen]. *)
Definition runTrimHandler (seen : nat) (vp : Viewport) (w : World) : World :=
  match handleMemoryOptimization seen vp with
  | Some updater => setVisibleItems (updater (visibleItems w)) w
  | None => w
  end.

(** The registered handler runs, called by the listener or, the listener
    removed, by the timer of its throttle. *)
Definition onTrim (vp : Viewport) (w : World) : World :=
  runTrimHandler (trimSees w) vp w.

(** The timer of the throttle of an earlier effect run fires and runs that
    run's handler, number [i] of [staleTrimSees]. *)
Definition onStaleTrim (i : nat) (vp : Viewport) (w : World) : World :=
  match nth_error (staleTrimSees w) i with
  | Some seen => runTrimHandler seen vp w
  | None => w
  end.

(** The effect cleanups (lines 83, 147-149, 171): listeners removed, observer
    disconnected.  No cleanup refers to the timers. *)
Definition unmount (w : World) : World :=
  {| visibleItems := visibleItems w;
     currentBgIndex := currentBgIndex w;
     isLoading := isLoading w;
     scrollY := scrollY w;
     mounted := false;
     observing := false;
     clock := clock w;
     loadTimers := loadTimers w;
     observerSees := observerSees w;
     trimSees := trimSees w;
     staleTrimSees := staleTrimSees w |}.

Inductive event :=
| Intersect (isIntersecting : bool)
| Elapse (d : nat)
| Scroll (vp : Viewport)
| Trim (vp : Viewport)
| Unmount
| Rerender
| StaleTrim (i : nat) (vp : Viewport).

Definition step (e : event) (w : World) : World :=
  match e with
  | Intersect b => onIntersection b w
  | Elapse d => elapse d w
  | Scroll vp => onScroll vp w
  | Trim vp => onTrim vp w
  | Unmount => unmount w
  | Rerender => rerender w
  | StaleTrim i vp => onStaleTrim i vp w
  end.

Definition run (es : list event) (w : World) : World :=
  fold_left (fun w' e => step e w') es w.

(** ** The throttle utility (lines 288-311) *)

Module Throttle.
Section Throttle.

(** [A] is the argument tuple of the wrapped function. *)
Variable A : Type.
Variable wait : Z.

(** The two variables closed over by the returned function.  A pending
    timer is its due time and the [args] its callback closes over. *)
Record state := mkState {
  timeout : option (Z * A);
  previous : Z
}.

Definition init : state := {| timeout := None; previous := 0 |}.

(** A call of the returned function at [Date.now() = now].  The second
    component lists the executions of [func]: time and arguments. *)
Definition call (now : Z) (args : A) (s : state) : state * list (Z * A) :=
  let remaining := (wait - (now - previous s))%Z in
  if (remaining <=? 0)%Z || (remaining >? wait)%Z then
    ({| timeout := None; previous := now |}, [(now, args)])
  else
    match timeout s with
    | None =>
        ({| timeout := Some ((now + remaining)%Z, args);
            previous := previous s |}, [])
    | Some _ => (s, [])
    end.

(** The timer callback of lines 304-308, run at [Date.now() = now]. *)
Definition fire (now : Z) (s : state) : state * list (Z * A) :=
  match timeout s with
  | Some (_, args) => ({| timeout := None; previous := now |}, [(now, args)])
  | None => (s, [])
  end.

Inductive event :=
| Call (now : Z) (args : A)
| TimerFires (now : Z).

Definition time_of (e : event) : Z :=
  match e with Call now _ => now | TimerFires now => now end.

Definition step (e : event) (s : state) : state * list (Z * A) :=
  match e with
  | Call now args => call now args s
  | TimerFires now => fire now s
  end.

(** State after the events and the executions of [func], oldest first. *)
Fixpoint run (es : list event) (s : state) : state * list (Z * A) :=
  match es with
  | [] => (s, [])
  | e :: es' =>
      let (s', out) := step e s in
      let (s'', outs) := run es' s' in
      (s'', out ++ outs)
  end.

(** What the host guarantees: the clock never goes back, and a timer
    callback runs only while its timer is pending and not before it is
    due. *)
Definition enabled (e : event) (s : state) : bool :=
  match e with
  | Call _ _ => true
  | TimerFires now =>
      match timeout s with
      | Some (due, _) => (due <=? now)%Z
      | None => false
      end
  end.

Fixpoint admissible (clock : Z) (s : state) (es : list event) : bool :=
  match es with
  | [] => true
  | e :: es' =>
      (clock <=? time_of e)%Z && enabled e s
      && admissible (time_of e) (fst (step e s)) es'
  end.

(** A call that falls in the cooldown window opened at [previous s]. *)
Definition in_window (s : state) (now : Z) : Prop :=
  (previous s <= now < previous s + wait)%Z.

End Throttle.
End Throttle.

Arguments Throttle.mkState {A}.
Arguments Throttle.timeout {A}.
Arguments Throttle.previous {A}.
Arguments Throttle.init {A}.
Arguments Throttle.call {A}.
Arguments Throttle.fire {A}.
Arguments Throttle.Call {A}.
Arguments Throttle.TimerFires {A}.
Arguments Throttle.time_of {A}.
Arguments Throttle.step {A}.
Arguments Throttle.run {A}.
Arguments Throttle.enabled {A}.
Arguments Throttle.admissible {A}.
Arguments Throttle.in_window {A}.

(** [throttle(handleMemoryOptimization, 1000)] (line 168). *)
Definition trimCooldown : Z := 1000.

(** Event scripts used below.  One batch is a sentinel notification followed
    by the simulated latency and the re-render that the landed batch causes;
    six of them after mount give 21 entries, which arms the guard of the trim
    handler. *)
Definition oneBatch : list event := [Intersect true; Elapse 500; Rerender].

Definition sixBatches : list event :=
  oneBatch ++ oneBatch ++ oneBatch ++ oneBatch ++ oneBatch ++ oneBatch.

(** Pairwise distinctness of a list of ids, as a test. *)
Fixpoint distinctb (ids : list string) : bool :=
  match ids with
  | [] => true
  | x :: rest => negb (existsb (String.eqb x) rest) && distinctb rest
  end.

(** The component is idle, or exactly one load timer is pending. *)
Definition one_batch_in_flight (w : World) : Prop :=
  (isLoading w = false /\ loadTimers w = [])
  \/ (isLoading w = true /\ exists due, loadTimers w = [due]).

(** The list after mount and any number of batches, described position by
    position: the three source entries, then suffixed copies of the cyclic
    source. *)
Definition sourceOf (j : nat) : GalleryItem :=
  nth (j mod List.length galleryItems) galleryItems
    (mkGalleryItem "" "" "" "" "" "").

Definition grownEntry (j : nat) : GalleryItem :=
  if (j <? 3)%nat then sourceOf j else withSuffixedId (sourceOf j) j.

Definition grown (n : nat) : list GalleryItem := map grownEntry (seq 0 n).

Definition is_trim (e : event) : bool :=
  match e with Trim _ | StaleTrim _ _ => true | _ => false end.

(** Any two executions are at least [wait] apart (times listed oldest
    first). *)
Definition spaced (wait : Z) (times : list Z) : Prop :=
  StronglySorted (fun t1 t2 => (t1 + wait <= t2)%Z) times.

(** A burst of calls as events. *)
Definition calls {A : Type} (cs : list (Z * A)) : list (Throttle.event A) :=
  map (fun c => Throttle.Call (fst c) (snd c)) cs.

(** Three scroll notifications 100 time-units apart, the first one on the
    leading edge, and the timer armed by the second. *)
Definition scrollBurst : list (Throttle.event string) :=
  [ Throttle.Call 5000000 "scroll-1";
    Throttle.Call 5000100 "scroll-2";
    Throttle.Call 5000200 "scroll-3";
    Throttle.TimerFires 5001000 ].

(** The arguments of the latest call of a window: those of the last of the
    [later] calls, or of the [first] when none followed. *)
Definition latest_args {A : Type} (first : A) (later : list (Z * A)) : A :=
  last (map snd later) first.

(** ** Render (lines 174-285)

    The parts of the returned tree that depend on the state: the background
    layer, one card per visible item, and the loading indicator.  The text
    produced by [toLocaleDateString] is left out. *)

Record BackgroundLayer := mkBackgroundLayer {
  layer_image : string;       (* backgroundImage: url(...) *)
  layer_translateY : Q        (* transform: translateY(...px) *)
}.

(** Lines 177-187. *)
Definition renderBackground (bgs : list BackgroundImage) (currentBgIndex : Z)
    (scrollY : Q) : option BackgroundLayer :=
  if (0 <? List.length bgs)%nat then
    match js_index bgs currentBgIndex with
    | Some bg => Some (mkBackgroundLayer (bg_image bg) (scrollY * (1 # 2))%Q)
    | None => None
    end
  else None.

Record Card := mkCard {
  card_key : string;            (* key={item.id} *)
  card_flipped : bool;          (* index % 2 === 1 *)
  card_animationDelay : nat;    (* (index % 3) * 200, in ms *)
  card_img_src : string;
  card_img_alt : string;
  card_heading : string;
  card_text : string;
  card_author : string;
  card_dateTime : string
}.

(** The callback of [visibleItems.map] (lines 217-267). *)
Definition renderCard (item : GalleryItem) (index : nat) : Card :=
  {| card_key := id item;
     card_flipped := (index mod 2 =? 1)%nat;
     card_animationDelay := ((index mod 3) * 200)%nat;
     card_img_src := image item;
     card_img_alt := title item;
     card_heading := title item;
     card_text := description item;
     card_author := author item;
     card_dateTime := date item |}.

Definition renderCards (items : list GalleryItem) : list Card :=
  map (fun p => renderCard (snd p) (fst p))
    (combine (seq 0 (List.length items)) items).

Record View := mkView {
  view_background : option BackgroundLayer;
  view_cards : list Card;
  view_spinner : bool           (* isLoading && ... (line 275) *)
}.

Definition render (w : World) : View :=
  {| view_background :=
       renderBackground backgroundImages (currentBgIndex w) (scrollY w);
     view_cards := renderCards (visibleItems w);
     view_spinner := isLoading w |}.

(** A run that contains no trim pass. *)
Definition no_trim (es : list event) : bool :=
  forallb (fun e => negb (is_trim e)) es.

(** Every sentinel notification of the run reaches an observer that has been
    rebuilt since [isLoading] last changed; [fresh] says so of the state the
    run starts in. *)
Fixpoint triggers_in_sync (fresh : bool) (es : list event) : bool :=
  match es with
  | [] => true
  | Intersect _ :: rest => fresh && triggers_in_sync false rest
  | Elapse _ :: rest => triggers_in_sync false rest
  | Rerender :: rest => triggers_in_sync true rest
  | _ :: rest => triggers_in_sync fresh rest
  end.

(** The arguments of the calls of a trace, in order. *)
Definition call_args {A : Type} (es : list (Throttle.event A)) : list A :=
  flat_map
    (fun e => match e with
              | Throttle.Call _ args => [args]
              | Throttle.TimerFires _ => []
              end) es.

(** The arguments a pending timer holds. *)
Definition pending_args {A : Type} (s : Throttle.state A) : list A :=
  match Throttle.timeout s with
  | Some (_, args) => [args]
  | None => []
  end.

(** [l1] is [l2] with some elements left out. *)
Inductive subsequence {A : Type} : list A -> list A -> Prop :=
| subsequence_nil : subsequence [] []
| subsequence_skip (x : A) (l1 l2 : list A) :
    subsequence l1 l2 -> subsequence l1 (x :: l2)
| subsequence_take (x : A) (l1 l2 : list A) :
    subsequence l1 l2 -> subsequence (x :: l1) (x :: l2).

(** * Properties *)

Example appendBatch_initial_ids :
  option_map (map id) (appendBatch initialItems)
  = Some ["1"; "2"; "3"; "1-3"; "2-4"; "3-5"].
Proof. reflexivity. Qed.

(** ** Pagination batch *)

Lemma galleryItems_cyclic_lookup (n : nat) :
  exists src,
    nth_error galleryItems (n mod List.length galleryItems) = Some src.
Proof.
  assert (Hlt : (n mod List.length galleryItems < 3)%nat)
    by (apply Nat.mod_upper_bound; discriminate).
  destruct (n mod List.length galleryItems) as [|[|[|k]]]; simpl;
    eauto; lia.
Qed.

Lemma withSuffixedId_copy (src : GalleryItem) (n : nat) :
  copy_with_id src (id src ++ "-" ++ string_of_nat n) (withSuffixedId src n).
Proof. repeat split. Qed.

(** The loop never fails and yields the three derived entries in order. *)
Lemma pushItems_batch (L : nat) :
  exists s0 s1 s2,
    nth_error galleryItems (L mod 3) = Some s0
    /\ nth_error galleryItems ((L + 1) mod 3) = Some s1
    /\ nth_error galleryItems ((L + 2) mod 3) = Some s2
    /\ pushItems L 0 itemsPerLoad []
       = Some [withSuffixedId s0 L; withSuffixedId s1 (L + 1);
               withSuffixedId s2 (L + 2)].
Proof.
  destruct (galleryItems_cyclic_lookup L) as [s0 H0].
  destruct (galleryItems_cyclic_lookup (L + 1)) as [s1 H1].
  destruct (galleryItems_cyclic_lookup (L + 2)) as [s2 H2].
  exists s0, s1, s2.
  change (List.length galleryItems) with 3%nat in H0, H1, H2.
  repeat split; try assumption.
  unfold itemsPerLoad. cbn [pushItems].
  change (List.length galleryItems) with 3%nat.
  rewrite Nat.add_0_r, H0. cbn [app].
  rewrite H1. cbn [app].
  now rewrite H2.
Qed.

Lemma appendBatch_total (prev : list GalleryItem) :
  exists newItems,
    appendBatch prev = Some (prev ++ newItems) /\ List.length newItems = 3%nat.
Proof.
  destruct (pushItems_batch (List.length prev))
    as (s0 & s1 & s2 & _ & _ & _ & H).
  unfold appendBatch. rewrite H. eexists. split; reflexivity.
Qed.

(** C5.  One pagination batch on a list of length [L] appends exactly three
    entries; entry [i] is [galleryItems[(L + i) mod 3]] with every field
    copied and the id suffixed with ["-"] and [L + i].  From the three
    initial entries the result has length 6 and the new ids are ["1-3"],
    ["2-4"], ["3-5"], in that order. *)
Theorem C5_batch_appends_three_cyclic_copies :
  (forall prev : list GalleryItem,
      let L := List.length prev in
      exists s0 s1 s2 e0 e1 e2,
        nth_error galleryItems (L mod List.length galleryItems) = Some s0
        /\ nth_error galleryItems ((L + 1) mod List.length galleryItems)
           = Some s1
        /\ nth_error galleryItems ((L + 2) mod List.length galleryItems)
           = Some s2
        /\ copy_with_id s0 (id s0 ++ "-" ++ string_of_nat L) e0
        /\ copy_with_id s1 (id s1 ++ "-" ++ string_of_nat (L + 1)) e1
        /\ copy_with_id s2 (id s2 ++ "-" ++ string_of_nat (L + 2)) e2
        /\ appendBatch prev = Some (prev ++ [e0; e1; e2]))
  /\ map id initialItems = ["1"; "2"; "3"]
  /\ exists e0 e1 e2,
       appendBatch initialItems = Some (initialItems ++ [e0; e1; e2])
       /\ List.length (initialItems ++ [e0; e1; e2]) = 6%nat
       /\ map id [e0; e1; e2] = ["1-3"; "2-4"; "3-5"].
Proof.
  split; [| split; [reflexivity |]].
  - intros prev L.
    destruct (pushItems_batch L) as (s0 & s1 & s2 & H0 & H1 & H2 & H).
    exists s0, s1, s2.
    exists (withSuffixedId s0 L), (withSuffixedId s1 (L + 1)),
      (withSuffixedId s2 (L + 2)).
    change (List.length galleryItems) with 3%nat.
    repeat (split; [first [assumption | apply withSuffixedId_copy] |]).
    unfold appendBatch. fold L. now rewrite H.
  - do 3 eexists. repeat split.
Qed.

(** ** Trim pass *)

(** The number of entries the updater asks [slice] to skip, as the handler
    computes it. *)
Lemma trimPass_unfold (vp : Viewport) (items : list GalleryItem) :
  (20 < List.length items)%nat ->
  trimPass vp items
  = skipn
      (Z.to_nat
         (Z.max 0
            (Qfloor ((win_scrollY vp - inject_Z (win_innerHeight vp) * 2)
                     / inject_Z 600)%Q)))
      items.
Proof.
  intros Hlen. unfold trimPass, handleMemoryOptimization.
  apply Nat.ltb_lt in Hlen. rewrite Hlen. reflexivity.
Qed.

Lemma trimPass_short (vp : Viewport) (items : list GalleryItem) :
  (List.length items <= 20)%nat -> trimPass vp items = items.
Proof.
  intros Hlen. unfold trimPass, handleMemoryOptimization.
  apply Nat.ltb_ge in Hlen. now rewrite Hlen.
Qed.

(** The count as the specification writes it,
    [floor((scrollTop - 2 * viewportHeight) / 600)], is the one computed. *)
Lemma dropCount_agrees (scrollTop : Q) (viewportHeight : Z) :
  Qfloor ((scrollTop - 2 * inject_Z viewportHeight) / 600)%Q
  = Qfloor ((scrollTop - inject_Z viewportHeight * 2) / inject_Z 600)%Q.
Proof. apply Qfloor_comp. field. Qed.

(** C6.  When more than 20 entries are visible, a trim pass removes exactly
    the first [max(0, floor((scrollTop - 2 * viewportHeight) / 600))] entries
    and keeps the rest in order; with 25 entries, viewport height 800 and
    scroll offset 4000 the first 4 go and 21 stay. *)
Theorem C6_trim_drops_prefix (items : list GalleryItem) (vp : Viewport) :
  (20 < List.length items)%nat ->
  let k :=
    Z.to_nat
      (Z.max 0
         (Qfloor
            ((win_scrollY vp - 2 * inject_Z (win_innerHeight vp)) / 600)%Q))
  in
  trimPass vp items = skipn k items
  /\ items = firstn k items ++ trimPass vp items
  /\ List.length (trimPass vp items) = (List.length items - k)%nat
  /\ (List.length items = 25%nat ->
      win_innerHeight vp = 800%Z ->
      (win_scrollY vp == 4000)%Q ->
      k = 4%nat /\ List.length (trimPass vp items) = 21%nat).
Proof.
  intros Hlen k.
  assert (Hk : trimPass vp items = skipn k items).
  { rewrite trimPass_unfold by assumption. unfold k.
    now rewrite dropCount_agrees. }
  split; [exact Hk |].
  split; [rewrite Hk; symmetry; apply firstn_skipn |].
  split; [rewrite Hk; apply length_skipn |].
  intros H25 Hvh Htop.
  assert (Hk4 : k = 4%nat).
  { unfold k. rewrite Hvh.
    rewrite (Qfloor_comp _ 4%Q); [reflexivity |].
    rewrite Htop. reflexivity. }
  split; [exact Hk4 |].
  now rewrite Hk, length_skipn, H25, Hk4.
Qed.

Lemma C6_trim_drops_prefix_witness :
  let items := repeat (mkGalleryItem "1" "" "" "" "" "") 25 in
  let vp := mkViewport 4000%Q 800 20000 in
  trimPass vp items = skipn 4 items
  /\ List.length (trimPass vp items) = 21%nat.
Proof.
  intros items vp.
  assert (Hlen : (20 < List.length items)%nat) by (vm_compute; lia).
  destruct (C6_trim_drops_prefix items vp Hlen) as (Hk & _ & _ & Hc).
  destruct Hc as [Hk4 H21]; [reflexivity | reflexivity | reflexivity |].
  split; [| exact H21].
  rewrite Hk. now rewrite Hk4.
Defined.

(** C10.  Nothing bounds the retained count from below: on the 21 entries
    reached by six batches, a trim pass at scroll offset 14200 with viewport
    height 800 computes a drop count of 21 and leaves the list empty. *)
Theorem C10_trim_can_empty_the_list :
  exists (w : World) (vp : Viewport),
    w = run sixBatches (mount 0)
    /\ (20 < List.length (visibleItems w))%nat
    /\ (Z.of_nat (List.length (visibleItems w))
        <= Qfloor
             ((win_scrollY vp - 2 * inject_Z (win_innerHeight vp)) / 600)%Q)%Z
    /\ trimPass vp (visibleItems w) = []
    /\ visibleItems (step (Trim vp) w) = [].
Proof.
  exists (run sixBatches (mount 0)), (mkViewport 14200%Q 800 20000).
  split; [reflexivity |].
  split; [vm_compute; lia |].
  split; [vm_compute; discriminate |].
  split; reflexivity.
Qed.

(** ** Background selection *)

Lemma backgroundEffect_some (bgs : list BackgroundImage) (vp : Viewport)
    (y : Q) (cur idx : Z) :
  backgroundEffect bgs vp y cur = Some idx ->
  idx = clampedIndex (List.length bgs)
          (doc_scrollHeight vp - win_innerHeight vp) y
  /\ idx <> cur.
Proof.
  unfold backgroundEffect.
  destruct (List.length bgs =? 0)%nat; [discriminate |].
  destruct (doc_scrollHeight vp - win_innerHeight vp <=? 0)%Z; [discriminate |].
  destruct (Z.eqb_spec
              (clampedIndex (List.length bgs)
                 (doc_scrollHeight vp - win_innerHeight vp) y) cur) as [E | E];
    cbn [negb andb]; [discriminate |].
  destruct (truthy _); [| discriminate].
  intros [= <-]. now split.
Qed.

(** C8.  With no scrollable height or no backgrounds the effect returns
    before computing anything: [setCurrentBgIndex] is not called and the
    index keeps its value. *)
Theorem C8_no_height_or_no_backgrounds_keeps_index
    (bgs : list BackgroundImage) (vp : Viewport) (y : Q) (cur : Z) :
  (doc_scrollHeight vp - win_innerHeight vp <= 0)%Z
  \/ List.length bgs = 0%nat ->
  backgroundEffect bgs vp y cur = None
  /\ selectBackground bgs vp y cur = cur.
Proof.
  intros Hdeg.
  assert (H : backgroundEffect bgs vp y cur = None).
  { unfold backgroundEffect. destruct Hdeg as [HH | HN].
    - apply Z.leb_le in HH. rewrite HH.
      now destruct (List.length bgs =? 0)%nat.
    - now rewrite HN. }
  split; [exact H |]. unfold selectBackground. now rewrite H.
Qed.

Lemma C8_no_height_or_no_backgrounds_keeps_index_witness :
  backgroundEffect backgroundImages (mkViewport 120%Q 900 900) 120%Q 2 = None
  /\ selectBackground backgroundImages (mkViewport 120%Q 900 900) 120%Q 2 = 2%Z
  /\ backgroundEffect [] (mkViewport 120%Q 900 5000) 120%Q 2 = None
  /\ selectBackground [] (mkViewport 120%Q 900 5000) 120%Q 2 = 2%Z.
Proof.
  destruct (C8_no_height_or_no_backgrounds_keeps_index backgroundImages
              (mkViewport 120%Q 900 900) 120%Q 2) as [H1 H2];
    [left; simpl; lia |].
  destruct (C8_no_height_or_no_backgrounds_keeps_index []
              (mkViewport 120%Q 900 5000) 120%Q 2) as [H3 H4];
    [right; reflexivity |].
  repeat split; assumption.
Defined.

(** C9.  Running the effect a second time with the same offset and metrics
    finds the index already in place: it computes the same index and does
    not call [setCurrentBgIndex]. *)
Theorem C9_background_selection_idempotent
    (bgs : list BackgroundImage) (vp : Viewport) (y : Q) (cur : Z) :
  let first := selectBackground bgs vp y cur in
  selectBackground bgs vp y first = first
  /\ backgroundEffect bgs vp y first = None.
Proof.
  intros first.
  assert (H : backgroundEffect bgs vp y first = None).
  { unfold first, selectBackground.
    destruct (backgroundEffect bgs vp y cur) as [idx |] eqn:E; [| exact E].
    apply backgroundEffect_some in E. destruct E as [-> _].
    unfold backgroundEffect.
    destruct (List.length bgs =? 0)%nat; [reflexivity |].
    destruct (doc_scrollHeight vp - win_innerHeight vp <=? 0)%Z;
      [reflexivity |].
    now rewrite Z.eqb_refl. }
  split; [| exact H].
  unfold selectBackground at 1. now rewrite H.
Qed.

Lemma inject_Z_nonneg (z : Z) : (0 <= z)%Z -> (0 <= inject_Z z)%Q.
Proof. intros Hz. unfold Qle. simpl. lia. Qed.

(** *** binary64 rounding is monotone and exact on small integers *)

Lemma half_even_bounds (q : Q) :
  (Qfloor q <= half_even q <= Qfloor q + 1)%Z.
Proof.
  unfold half_even.
  destruct (q - inject_Z (Qfloor q) ?= 1 # 2)%Q;
    try destruct (Z.even (Qfloor q)); lia.
Qed.

Lemma half_even_Z (z : Z) : half_even (inject_Z z) = z.
Proof.
  unfold half_even. rewrite Qfloor_Z.
  destruct (Qcompare_spec (inject_Z z - inject_Z z) (1 # 2))
    as [E | Hlt | Hgt]; [exfalso; lra | reflexivity | exfalso; lra].
Qed.

Lemma half_even_comp (x y : Q) : (x == y)%Q -> half_even x = half_even y.
Proof.
  intros E. unfold half_even.
  rewrite (Qfloor_comp x y E).
  assert (Ec : (x - inject_Z (Qfloor y) ?= 1 # 2)%Q
               = (y - inject_Z (Qfloor y) ?= 1 # 2)%Q)
    by now rewrite E.
  now rewrite Ec.
Qed.

Lemma half_even_mono (x y : Q) :
  (x <= y)%Q -> (half_even x <= half_even y)%Z.
Proof.
  intros Hxy.
  pose proof (Qfloor_resp_le x y Hxy) as Hf.
  destruct (Z.eq_dec (Qfloor x) (Qfloor y)) as [E | Hne].
  - unfold half_even. rewrite E.
    destruct (Qcompare_spec (x - inject_Z (Qfloor y)) (1 # 2)) as [Hx | Hx | Hx];
      destruct (Qcompare_spec (y - inject_Z (Qfloor y)) (1 # 2))
        as [Hy | Hy | Hy];
      try destruct (Z.even (Qfloor y)); try lia; exfalso; lra.
  - pose proof (half_even_bounds x). pose proof (half_even_bounds y). lia.
Qed.

Lemma pow2_pos (s : Z) : (0 <= s)%Z -> (0 < inject_Z (2 ^ s))%Q.
Proof.
  intros Hs. rewrite <- (Zlt_Qlt 0). now apply Z.pow_pos_nonneg.
Qed.

Lemma below_next_binade (x : Q) :
  (0 <= x)%Q -> (x < inject_Z (2 ^ (Z.log2 (Qfloor x) + 1)))%Q.
Proof.
  intros Hx.
  assert (Hf : (0 <= Qfloor x)%Z).
  { rewrite <- (Qfloor_Z 0). now apply Qfloor_resp_le. }
  assert (Hb : (Qfloor x + 1 <= 2 ^ (Z.log2 (Qfloor x) + 1))%Z).
  { destruct (Z.eq_dec (Qfloor x) 0) as [E | Hne].
    - rewrite E. cbn. lia.
    - pose proof (Z.log2_spec (Qfloor x)) as Hs.
      replace (Z.succ (Z.log2 (Qfloor x))) with (Z.log2 (Qfloor x) + 1)%Z
        in Hs by lia.
      lia. }
  eapply Qlt_le_trans; [apply Qlt_floor |].
  now rewrite <- Zle_Qle.
Qed.

Lemma round_scaled_nonneg (x : Q) : (0 <= x)%Q -> (0 <= round_scaled x)%Z.
Proof.
  intros Hx. unfold round_scaled.
  assert (Hs : (0 <= spacing x)%Z) by (unfold spacing; lia).
  apply Z.mul_nonneg_nonneg; [| now apply Z.pow_nonneg].
  pose proof (half_even_bounds (x / inject_Z (2 ^ spacing x))) as Hb.
  assert (Hq : (0 <= x / inject_Z (2 ^ spacing x))%Q).
  { apply Qle_shift_div_l; [now apply pow2_pos | lra]. }
  apply Qfloor_resp_le in Hq. change 0%Q with (inject_Z 0) in Hq.
  rewrite Qfloor_Z in Hq. lia.
Qed.

Lemma round_scaled_comp (x y : Q) :
  (x == y)%Q -> round_scaled x = round_scaled y.
Proof.
  intros E. unfold round_scaled, spacing.
  rewrite (Qfloor_comp x y E).
  f_equal. apply half_even_comp. now rewrite E.
Qed.

Lemma round_scaled_mono (x y : Q) :
  (0 <= x)%Q -> (x <= y)%Q -> (round_scaled x <= round_scaled y)%Z.
Proof.
  intros Hx Hxy.
  assert (Hy : (0 <= y)%Q) by lra.
  unfold round_scaled.
  assert (Hsx : (0 <= spacing x)%Z) by (unfold spacing; lia).
  assert (Hsy : (0 <= spacing y)%Z) by (unfold spacing; lia).
  assert (Hle : (spacing x <= spacing y)%Z).
  { unfold spacing.
    pose proof (Z.log2_le_mono _ _ (Qfloor_resp_le x y Hxy)). lia. }
  destruct (Z.eq_dec (spacing x) (spacing y)) as [E | Hne].
  - rewrite E. apply Z.mul_le_mono_nonneg_r; [now apply Z.pow_nonneg |].
    apply half_even_mono.
    unfold Qdiv. apply Qmult_le_compat_r; [exact Hxy |].
    apply Qlt_le_weak, Qinv_lt_0_compat. now apply pow2_pos.
  - assert (Hlt : (spacing x < spacing y)%Z) by lia.
    (* x rounds to at most 2^53 spacings of its binade *)
    assert (Hup : (half_even (x / inject_Z (2 ^ spacing x)) <= 2 ^ 53)%Z).
    { rewrite <- (half_even_Z (2 ^ 53)). apply half_even_mono.
      apply Qle_shift_div_r; [now apply pow2_pos |].
      rewrite <- inject_Z_mult, <- Z.pow_add_r by lia.
      apply Qlt_le_weak.
      eapply Qlt_le_trans; [apply below_next_binade; exact Hx |].
      rewrite <- Zle_Qle. apply Z.pow_le_mono_r; [lia |].
      unfold spacing. lia. }
    (* y rounds to at least 2^52 spacings of its binade *)
    assert (Hlog : Z.log2 (Qfloor y) = (52 + spacing y)%Z)
      by (unfold spacing in *; lia).
    assert (Hfy : (0 < Qfloor y)%Z).
    { destruct (Z.lt_trichotomy (Qfloor y) 0) as [Hn | [Hz | Hp]];
        [| | exact Hp].
      - rewrite Z.log2_nonpos in Hlog by lia. lia.
      - assert (Z.log2 (Qfloor y) = 0%Z) by (rewrite Hz; reflexivity).
        lia. }
    assert (Hlow : (2 ^ 52 <= half_even (y / inject_Z (2 ^ spacing y)))%Z).
    { rewrite <- (half_even_Z (2 ^ 52)). apply half_even_mono.
      apply Qle_shift_div_l; [now apply pow2_pos |].
      rewrite <- inject_Z_mult, <- Z.pow_add_r by lia.
      eapply Qle_trans; [| apply Qfloor_le].
      rewrite <- Zle_Qle, <- Hlog.
      now apply Z.log2_spec. }
    apply Z.le_trans with (2 ^ 53 * 2 ^ spacing x)%Z.
    { apply Z.mul_le_mono_nonneg_r; [now apply Z.pow_nonneg | exact Hup]. }
    apply Z.le_trans with (2 ^ 52 * 2 ^ spacing y)%Z.
    { rewrite <- !Z.pow_add_r by lia. apply Z.pow_le_mono_r; lia. }
    apply Z.mul_le_mono_nonneg_r; [now apply Z.pow_nonneg | exact Hlow].
Qed.

Lemma round_scaled_exact (z t : Z) :
  (0 <= z < 2 ^ 53)%Z -> (0 <= t)%Z ->
  round_scaled (inject_Z (z * 2 ^ t)) = (z * 2 ^ t)%Z.
Proof.
  intros Hz Ht. unfold round_scaled.
  set (s := spacing (inject_Z (z * 2 ^ t))).
  assert (Hs : (0 <= s <= t)%Z).
  { unfold s, spacing. rewrite Qfloor_Z.
    destruct (Z.eq_dec z 0) as [-> | Hne]; [cbn; lia |].
    rewrite Z.log2_mul_pow2 by lia.
    assert (Z.log2 z < 53)%Z by (apply Z.log2_lt_pow2; lia).
    lia. }
  assert (E : (z * 2 ^ t = z * 2 ^ (t - s) * 2 ^ s)%Z).
  { rewrite <- Z.mul_assoc, <- Z.pow_add_r by lia. do 2 f_equal. lia. }
  rewrite (half_even_comp _ (inject_Z (z * 2 ^ (t - s)))).
  - rewrite half_even_Z. now rewrite <- E.
  - rewrite E at 1. rewrite (inject_Z_mult _ (2 ^ s)).
    field. intros E0.
    pose proof (pow2_pos s (proj1 Hs)) as Hp. rewrite E0 in Hp.
    now apply Qlt_irrefl in Hp.
Qed.

Lemma unit_pos : (0 < inject_Z (2 ^ 1074))%Q.
Proof. apply pow2_pos. lia. Qed.

Lemma round64_nonneg_eq (q : Q) :
  (0 <= q)%Q ->
  round64 q = (inject_Z (round_scaled (q * inject_Z (2 ^ 1074)))
               / inject_Z (2 ^ 1074))%Q.
Proof.
  intros Hq. unfold round64.
  destruct (Qcompare_spec q 0) as [E | Hlt | Hgt]; try reflexivity.
  exfalso. lra.
Qed.

Lemma round64_neg_eq (q : Q) :
  (q < 0)%Q ->
  round64 q = (- (inject_Z (round_scaled (- q * inject_Z (2 ^ 1074)))
                  / inject_Z (2 ^ 1074)))%Q.
Proof.
  intros Hq. unfold round64.
  destruct (Qcompare_spec q 0) as [E | Hlt | Hgt]; try reflexivity;
    exfalso; lra.
Qed.

Lemma round64_nonneg (q : Q) : (0 <= q)%Q -> (0 <= round64 q)%Q.
Proof.
  intros Hq. rewrite round64_nonneg_eq by exact Hq.
  apply Qle_shift_div_l; [apply unit_pos |].
  rewrite Qmult_0_l. rewrite <- (Zle_Qle 0).
  apply round_scaled_nonneg.
  apply Qmult_le_0_compat; [exact Hq | apply Qlt_le_weak, unit_pos].
Qed.

Lemma round64_nonpos (q : Q) : (q < 0)%Q -> (round64 q <= 0)%Q.
Proof.
  intros Hq. rewrite round64_neg_eq by exact Hq.
  assert (H : (0 <= inject_Z (round_scaled (- q * inject_Z (2 ^ 1074)))
                    / inject_Z (2 ^ 1074))%Q).
  { apply Qle_shift_div_l; [apply unit_pos |].
    rewrite Qmult_0_l. rewrite <- (Zle_Qle 0).
    apply round_scaled_nonneg.
    apply Qmult_le_0_compat; [lra | apply Qlt_le_weak, unit_pos]. }
  lra.
Qed.

Lemma scaled_le (a b : Z) :
  (a <= b)%Z ->
  (inject_Z a / inject_Z (2 ^ 1074) <= inject_Z b / inject_Z (2 ^ 1074))%Q.
Proof.
  intros Hab. unfold Qdiv. apply Qmult_le_compat_r.
  - now rewrite <- Zle_Qle.
  - apply Qlt_le_weak, Qinv_lt_0_compat, unit_pos.
Qed.

(** Rounding to nearest is monotone. *)
Lemma round64_mono (x y : Q) : (x <= y)%Q -> (round64 x <= round64 y)%Q.
Proof.
  intros Hxy.
  pose proof unit_pos as Hu.
  destruct (Qlt_le_dec x 0) as [Hx | Hx]; destruct (Qlt_le_dec y 0) as [Hy | Hy].
  - rewrite (round64_neg_eq x Hx), (round64_neg_eq y Hy).
    apply Qopp_le_compat, scaled_le, round_scaled_mono.
    + apply Qmult_le_0_compat; [lra | now apply Qlt_le_weak].
    + apply Qmult_le_compat_r; [lra | now apply Qlt_le_weak].
  - apply Qle_trans with 0%Q;
      [now apply round64_nonpos | now apply round64_nonneg].
  - exfalso. lra.
  - rewrite (round64_nonneg_eq x Hx), (round64_nonneg_eq y Hy).
    apply scaled_le, round_scaled_mono.
    + apply Qmult_le_0_compat; [exact Hx | now apply Qlt_le_weak].
    + apply Qmult_le_compat_r; [exact Hxy | now apply Qlt_le_weak].
Qed.

(** Integers below 2^53 are represented exactly. *)
Lemma round64_int (z : Z) :
  (0 <= z < 2 ^ 53)%Z -> (round64 (inject_Z z) == inject_Z z)%Q.
Proof.
  intros Hz.
  rewrite round64_nonneg_eq by (rewrite <- (Zle_Qle 0); lia).
  rewrite <- inject_Z_mult, round_scaled_exact by lia.
  rewrite inject_Z_mult. field.
  intros E. pose proof unit_pos as Hu. rewrite E in Hu.
  now apply Qlt_irrefl in Hu.
Qed.

Lemma round64_comp (x y : Q) : (x == y)%Q -> (round64 x == round64 y)%Q.
Proof.
  intros E. apply Qle_antisym; apply round64_mono; rewrite E; apply Qle_refl.
Qed.

(** *** The index under a rounding

    Range, monotonicity and end points need only that the rounding is
    monotone and exact on the integers below 2^53. *)
Section Rounding.

Variable rnd : Q -> Q.
Hypothesis rnd_mono : forall x y : Q, (x <= y)%Q -> (rnd x <= rnd y)%Q.
Hypothesis rnd_int :
  forall z : Z, (0 <= z < 2 ^ 53)%Z -> (rnd (inject_Z z) == inject_Z z)%Q.

Lemma rnd_comp (x y : Q) : (x == y)%Q -> (rnd x == rnd y)%Q.
Proof.
  intros E. apply Qle_antisym; apply rnd_mono; rewrite E; apply Qle_refl.
Qed.

Lemma clampedIndexRounded_range (n : nat) (H : Z) (y : Q) :
  (1 <= n)%nat -> (0 <= clampedIndexRounded rnd n H y <= Z.of_nat n - 1)%Z.
Proof. intros Hn. unfold clampedIndexRounded. lia. Qed.

Lemma clampedIndexRounded_mono (n : nat) (H : Z) (y1 y2 : Q) :
  (0 < H)%Z -> (y1 <= y2)%Q ->
  (clampedIndexRounded rnd n H y1 <= clampedIndexRounded rnd n H y2)%Z.
Proof.
  intros HH Hy. unfold clampedIndexRounded.
  assert (Hfl : (Qfloor (rnd (rnd (y1 / inject_Z H) * inject_Z (Z.of_nat n)))
                 <= Qfloor (rnd (rnd (y2 / inject_Z H)
                                 * inject_Z (Z.of_nat n))))%Z).
  { apply Qfloor_resp_le, rnd_mono.
    apply Qmult_le_compat_r; [| apply inject_Z_nonneg; lia].
    apply rnd_mono. unfold Qdiv. apply Qmult_le_compat_r; [exact Hy |].
    apply Qinv_le_0_compat, inject_Z_nonneg. lia. }
  lia.
Qed.

Lemma clampedIndexRounded_top (n : nat) (H : Z) :
  clampedIndexRounded rnd n H 0 = 0%Z.
Proof.
  unfold clampedIndexRounded.
  assert (H0 : (rnd (inject_Z 0) == inject_Z 0)%Q) by (apply rnd_int; lia).
  rewrite (Qfloor_comp _ (inject_Z 0)).
  - rewrite Qfloor_Z. lia.
  - apply Qeq_trans with (rnd (inject_Z 0)); [| exact H0].
    apply rnd_comp.
    rewrite (rnd_comp (0 / inject_Z H) (inject_Z 0)).
    + rewrite H0. apply Qmult_0_l.
    + unfold Qdiv. apply Qmult_0_l.
Qed.

Lemma clampedIndexRounded_bottom (n : nat) (H : Z) :
  (0 < H)%Z -> (1 <= Z.of_nat n < 2 ^ 53)%Z ->
  clampedIndexRounded rnd n H (inject_Z H) = (Z.of_nat n - 1)%Z.
Proof.
  intros HH Hn. unfold clampedIndexRounded.
  assert (H1 : (rnd (inject_Z 1) == inject_Z 1)%Q) by (apply rnd_int; lia).
  assert (HN : (rnd (inject_Z (Z.of_nat n)) == inject_Z (Z.of_nat n))%Q)
    by (apply rnd_int; lia).
  rewrite (Qfloor_comp _ (inject_Z (Z.of_nat n))).
  - rewrite Qfloor_Z. lia.
  - apply Qeq_trans with (rnd (inject_Z (Z.of_nat n))); [| exact HN].
    apply rnd_comp.
    rewrite (rnd_comp (inject_Z H / inject_Z H) (inject_Z 1)).
    + rewrite H1. apply Qmult_1_l.
    + field. intros E. unfold Qeq in E. simpl in E. lia.
Qed.

End Rounding.

Lemma clampedIndex_range (n : nat) (H : Z) (y : Q) :
  (1 <= n)%nat -> (0 <= clampedIndex n H y <= Z.of_nat n - 1)%Z.
Proof. apply (clampedIndexRounded_range round64). Qed.

Lemma clampedIndex_mono (n : nat) (H : Z) (y1 y2 : Q) :
  (0 < H)%Z -> (y1 <= y2)%Q ->
  (clampedIndex n H y1 <= clampedIndex n H y2)%Z.
Proof. apply (clampedIndexRounded_mono round64 round64_mono). Qed.

Lemma clampedIndex_top (n : nat) (H : Z) :
  (clampedIndex n H 0 = 0)%Z.
Proof. apply (clampedIndexRounded_top round64 round64_mono round64_int). Qed.

Lemma clampedIndex_bottom (n : nat) (H : Z) :
  (0 < H)%Z -> (1 <= Z.of_nat n < 2 ^ 53)%Z ->
  (clampedIndex n H (inject_Z H) = Z.of_nat n - 1)%Z.
Proof.
  apply (clampedIndexRounded_bottom round64 round64_mono round64_int).
Qed.

(** Rounding is visible in the index.  The double next below 1000 is
    8796093022207999 / 2^43; over a height of 3000 with three backgrounds the
    exact quotient is below 1/3, the rounded product is 1.0, and the index
    is 1 where exact arithmetic gives 0. *)
Lemma clampedIndex_rounding_example :
  let y := (8796093022207999 # 8796093022208)%Q in
  clampedIndex 3 3000 y = 1%Z
  /\ Qfloor (y / 3000 * 3)%Q = 0%Z
  /\ clampedIndexRounded (fun q => q) 3 3000 y = 0%Z.
Proof. vm_compute. repeat split. Qed.

(** With backgrounds and a positive scrollable height the effect leaves the
    clamped index in the state, whatever the index was. *)
Lemma selectBackground_clamped (bgs : list BackgroundImage) (vp : Viewport)
    (y : Q) (cur : Z) :
  (0 < doc_scrollHeight vp - win_innerHeight vp)%Z ->
  (1 <= List.length bgs)%nat ->
  selectBackground bgs vp y cur
  = clampedIndex (List.length bgs) (doc_scrollHeight vp - win_innerHeight vp) y.
Proof.
  intros HH Hn. unfold selectBackground, backgroundEffect.
  destruct (Nat.eqb_spec (List.length bgs) 0) as [E | _]; [lia |].
  destruct (Z.leb_spec (doc_scrollHeight vp - win_innerHeight vp) 0) as [E | _];
    [lia |].
  set (c := clampedIndex _ _ _).
  destruct (Z.eqb_spec c cur) as [E | E]; cbn [negb andb]; [now symmetry |].
  assert (Hc : (0 <= c <= Z.of_nat (List.length bgs) - 1)%Z)
    by (apply clampedIndex_range; exact Hn).
  unfold js_index.
  destruct (Z.ltb_spec c 0) as [Hneg | _]; [lia |].
  destruct (nth_error bgs (Z.to_nat c)) eqn:Hnth; [reflexivity |].
  apply nth_error_None in Hnth. lia.
Qed.

(** C4.  For a scrollable height [H > 0] and [N >= 1] backgrounds, the index
    floor((scrollOffset / H) * N), quotient and product computed in binary64,
    clamped to [0, N-1], is the one the effect stores; over offsets in [0, H]
    it stays in [0, N-1], never decreases as the offset grows, is 0 at
    offset 0 and N-1 at offset H.  The last point uses that [N] is
    represented exactly: an array length is below 2^32, so below 2^53. *)
Theorem C4_background_index_range_and_monotone
    (bgs : list BackgroundImage) (vp : Viewport) :
  let H := (doc_scrollHeight vp - win_innerHeight vp)%Z in
  let N := Z.of_nat (List.length bgs) in
  let index := fun y : Q =>
    Z.max 0
      (Z.min (Qfloor (round64 (round64 (y / inject_Z H) * inject_Z N)%Q))
         (N - 1)) in
  (0 < H)%Z -> (1 <= N)%Z ->
  (forall (y : Q) (cur : Z), selectBackground bgs vp y cur = index y)
  /\ (forall y : Q, (0 <= y)%Q -> (y <= inject_Z H)%Q ->
        (0 <= index y <= N - 1)%Z)
  /\ (forall y1 y2 : Q,
        (0 <= y1)%Q -> (y1 <= y2)%Q -> (y2 <= inject_Z H)%Q ->
        (index y1 <= index y2)%Z)
  /\ index 0%Q = 0%Z
  /\ ((N < 2 ^ 53)%Z -> index (inject_Z H) = (N - 1)%Z).
Proof.
  intros H N index HH HN.
  assert (Hn : (1 <= List.length bgs)%nat) by lia.
  change index with (clampedIndex (List.length bgs) H).
  split; [intros y cur; now apply selectBackground_clamped |].
  split; [intros y _ _; now apply clampedIndex_range |].
  split; [intros y1 y2 _ Hy _; now apply clampedIndex_mono |].
  split; [apply clampedIndex_top |].
  intros Hrep. apply clampedIndex_bottom; [exact HH | fold N; lia].
Qed.

Lemma C4_background_index_range_and_monotone_witness :
  let vp := mkViewport 0%Q 800 3800 in
  selectBackground backgroundImages vp 0%Q 1 = 0%Z
  /\ selectBackground backgroundImages vp 3000%Q 0 = 2%Z
  /\ (selectBackground backgroundImages vp 1000%Q 0
      <= selectBackground backgroundImages vp 2500%Q 0)%Z
  /\ (0 <= selectBackground backgroundImages vp (2999 # 3) 0 <= 2)%Z.
Proof.
  intros vp.
  destruct (C4_background_index_range_and_monotone backgroundImages vp)
    as (Hsel & Hrange & Hmono & H0 & HH); [cbn; lia | cbn; lia |].
  rewrite !Hsel.
  split; [exact H0 |].
  split; [apply HH; cbn; lia |].
  split; [apply Hmono | apply Hrange]; unfold Qle; cbn; lia.
Defined.

(** ** Pagination gate *)

Lemma run_app (es1 es2 : list event) (w : World) :
  run (es1 ++ es2) w = run es2 (run es1 w).
Proof. apply fold_left_app. Qed.

(** The guard of line 104 does its work once the effect of lines 131-150
    has run again: after a re-render with [isLoading] set, a notification
    changes nothing. *)
Lemma trigger_after_rerender_ignored (w : World) (b : bool) :
  mounted w = true -> isLoading w = true ->
  step (Intersect b) (rerender w) = rerender w.
Proof.
  intros Hm Hl. cbn [step]. unfold onIntersection, rerender.
  rewrite Hm. cbn [observing observerSees]. rewrite Hl.
  unfold loadMoreItems. now destruct (observing w), b.
Qed.

(** C7 (the code departs from it).  Two sentinel notifications reach the
    observer before the component re-renders: the callback still holds the
    [loadMoreItems] that closed over [isLoading = false], so both pass the
    guard and two timers are pending; when they run, two batches are
    appended and the list has 9 entries.  With a re-render between the two
    notifications the second is ignored and one batch lands. *)
Theorem C7_stale_closure_starts_second_batch :
  let twice := run [Intersect true; Intersect true] (mount 0) in
  let landed := step (Elapse 500) twice in
  let synced :=
    run [Intersect true; Rerender; Intersect true; Elapse 500] (mount 0) in
  isLoading twice = true
  /\ loadTimers twice = [500%Z; 500%Z]
  /\ map id (visibleItems landed)
     = ["1"; "2"; "3"; "1-3"; "2-4"; "3-5"; "1-6"; "2-7"; "3-8"]
  /\ map id (visibleItems synced) = ["1"; "2"; "3"; "1-3"; "2-4"; "3-5"].
Proof.
  intros twice landed synced.
  split; [reflexivity |].
  split; [reflexivity |].
  split; vm_compute; reflexivity.
Qed.

(** ** Teardown *)

(** The cleanups disconnect the observer and remove the listeners; the
    timers of [loadMoreItems] stay as they are. *)
Lemma unmount_keeps_load_timers (w : World) :
  loadTimers (unmount w) = loadTimers w
  /\ observing (unmount w) = false
  /\ mounted (unmount w) = false.
Proof. repeat split. Qed.

(** C2 (the code departs from it).  Mount, let the sentinel start a batch,
    unmount 100 time-units later: the observer is released but the load timer
    is still pending, and when its 500 time-units are over the callback runs,
    appends the batch and clears [isLoading]. *)
Theorem C2_load_timer_outlives_unmount (t : Z) :
  let pending := run [Intersect true; Elapse 100; Unmount] (mount t) in
  let later := step (Elapse 400) pending in
  mounted pending = false
  /\ observing pending = false
  /\ isLoading pending = true
  /\ loadTimers pending = [(t + 500)%Z]
  /\ map id (visibleItems pending) = ["1"; "2"; "3"]
  /\ isLoading later = false
  /\ map id (visibleItems later) = ["1"; "2"; "3"; "1-3"; "2-4"; "3-5"].
Proof.
  intros pending later.
  assert (Hp : pending
               = mkWorld initialItems 0 true 0%Q false false (t + 100)
                   [(t + 500)%Z] false 3 [0%nat]).
  { unfold pending, run. cbn [fold_left step].
    unfold onIntersection, loadMoreItems, mount.
    cbn [observing observerSees].
    unfold elapse, loadDelay, setClockAndTimers, setIsLoading.
    cbn [loadTimers clock app filter].
    change (Z.of_nat 100) with 100%Z.
    destruct (Z.leb_spec (t + 500) (t + 100)) as [Hle | _]; [lia |].
    reflexivity. }
  unfold later. rewrite Hp. cbn [step]. unfold elapse.
  cbn [loadTimers clock filter]. change (Z.of_nat 400) with 400%Z.
  destruct (Z.leb_spec (t + 500) (t + 100 + 400)) as [_ | Hlt]; [| lia].
  repeat split.
Qed.

(** ** Distinctness of ids *)

Lemma distinctb_NoDup (ids : list string) :
  NoDup ids -> distinctb ids = true.
Proof.
  induction 1 as [| x rest Hnotin _ IH]; [reflexivity |].
  cbn [distinctb]. rewrite IH, andb_true_r.
  destruct (existsb (String.eqb x) rest) eqn:E; [| reflexivity].
  apply existsb_exists in E. destruct E as (y & Hin & Heq).
  apply String.eqb_eq in Heq. subst y. contradiction.
Qed.

Lemma string_of_nat_inj (n m : nat) :
  string_of_nat n = string_of_nat m -> n = m.
Proof.
  unfold string_of_nat. intros E.
  apply (f_equal NilEmpty.uint_of_string) in E.
  rewrite !NilEmpty.usu in E. injection E as E.
  now apply DecimalNat.Unsigned.to_uint_inj.
Qed.

Lemma sourceOf_id (j : nat) :
  id (sourceOf j) = "1" \/ id (sourceOf j) = "2" \/ id (sourceOf j) = "3".
Proof.
  unfold sourceOf.
  assert (Hlt : (j mod List.length galleryItems < 3)%nat)
    by (apply Nat.mod_upper_bound; discriminate).
  destruct (j mod List.length galleryItems) as [|[|[|k]]]; cbn; auto; lia.
Qed.

Lemma sourceOf_lookup (j : nat) (src : GalleryItem) :
  nth_error galleryItems (j mod 3) = Some src -> src = sourceOf j.
Proof.
  intros E. unfold sourceOf. symmetry.
  change (List.length galleryItems) with 3%nat.
  now apply nth_error_nth.
Qed.

Lemma grownEntry_id_inj (j j' : nat) :
  id (grownEntry j) = id (grownEntry j') -> j = j'.
Proof.
  unfold grownEntry.
  destruct (Nat.ltb_spec j 3) as [Hj | Hj];
    destruct (Nat.ltb_spec j' 3) as [Hj' | Hj'].
  - destruct j as [|[|[|j]]]; try lia;
      destruct j' as [|[|[|j']]]; try lia; cbn; congruence.
  - destruct (sourceOf_id j') as [E | [E | E]];
      cbn [withSuffixedId id]; rewrite E;
      destruct j as [|[|[|j]]]; try lia; cbn; discriminate.
  - destruct (sourceOf_id j) as [E | [E | E]];
      cbn [withSuffixedId id]; rewrite E;
      destruct j' as [|[|[|j']]]; try lia; cbn; discriminate.
  - cbn [withSuffixedId id].
    destruct (sourceOf_id j) as [E | [E | E]];
      destruct (sourceOf_id j') as [E' | [E' | E']];
      rewrite E, E'; cbn [append]; intros H;
      try discriminate H; injection H as H; now apply string_of_nat_inj.
Qed.

Lemma grown_ids_distinct (n : nat) : NoDup (map id (grown n)).
Proof.
  unfold grown. rewrite map_map.
  apply Injective_map_NoDup; [| apply seq_NoDup].
  intros j j'. apply grownEntry_id_inj.
Qed.

Lemma grownEntry_late (j : nat) :
  (3 <= j)%nat -> grownEntry j = withSuffixedId (sourceOf j) j.
Proof.
  intros Hj. unfold grownEntry.
  destruct (Nat.ltb_spec j 3) as [Hlt | _]; [lia | reflexivity].
Qed.

Lemma appendBatch_grown (n : nat) :
  (3 <= n)%nat -> appendBatch (grown n) = Some (grown (n + 3)).
Proof.
  intros Hn. unfold appendBatch.
  assert (Hlen : List.length (grown n) = n)
    by (unfold grown; now rewrite length_map, length_seq).
  rewrite Hlen.
  destruct (pushItems_batch n) as (s0 & s1 & s2 & H0 & H1 & H2 & ->).
  apply sourceOf_lookup in H0, H1, H2. subst s0 s1 s2.
  unfold grown. rewrite seq_app, map_app. cbn [seq map Nat.add].
  rewrite (grownEntry_late n), (grownEntry_late (S n)),
    (grownEntry_late (S (S n))) by lia.
  replace (n + 1)%nat with (S n) by lia.
  replace (n + 2)%nat with (S (S n)) by lia.
  reflexivity.
Qed.

Lemma callbacks_keep_grown (due : list Z) (w : World) :
  (exists n, (3 <= n)%nat /\ visibleItems w = grown n) ->
  exists n, (3 <= n)%nat
            /\ visibleItems
                 (fold_left (fun w' _ => loadTimerCallback w') due w)
               = grown n.
Proof.
  revert w. induction due as [| d due IH]; intros w Hw; [exact Hw |].
  cbn [fold_left]. apply IH. destruct Hw as (n & Hn & E).
  exists (n + 3)%nat. split; [lia |].
  unfold loadTimerCallback.
  cbn [visibleItems setIsLoading setVisibleItems].
  now rewrite E, appendBatch_grown.
Qed.

Lemma step_keeps_grown (e : event) (w : World) :
  is_trim e = false ->
  (exists n, (3 <= n)%nat /\ visibleItems w = grown n) ->
  exists n, (3 <= n)%nat /\ visibleItems (step e w) = grown n.
Proof.
  intros Hnt Hw. destruct e as [b | d | vp | vp | | | i vp]; cbn [step].
  - unfold onIntersection, loadMoreItems.
    destruct (observing w), b, (observerSees w); exact Hw.
  - unfold elapse. apply callbacks_keep_grown. exact Hw.
  - unfold onScroll. destruct (mounted w); exact Hw.
  - discriminate Hnt.
  - exact Hw.
  - unfold rerender. destruct (mounted w); exact Hw.
  - discriminate Hnt.
Qed.

(** While no trim pass has run, the ids are pairwise distinct: the running
    length only grows, so no suffix is issued twice. *)
Lemma ids_distinct_without_trim (es : list event) (t : Z) :
  forallb (fun e => negb (is_trim e)) es = true ->
  NoDup (map id (visibleItems (run es (mount t)))).
Proof.
  intros Hes.
  assert (H : exists n, (3 <= n)%nat
                        /\ visibleItems (run es (mount t)) = grown n).
  { assert (H0 : exists n, (3 <= n)%nat /\ visibleItems (mount t) = grown n)
      by (exists 3%nat; split; [lia | reflexivity]).
    revert H0. generalize (mount t) as w. revert Hes.
    induction es as [| e es IH]; intros Hes w Hw; [exact Hw |].
    cbn [forallb] in Hes. apply andb_prop in Hes. destruct Hes as [He Hes].
    apply (IH Hes). apply step_keeps_grown; [| exact Hw].
    now destruct (is_trim e). }
  destruct H as (n & _ & ->). apply grown_ids_distinct.
Qed.

(** C1 (the code departs from it).  Six batches give 21 entries; a trim pass
    at scroll offset 4000 with viewport height 800 drops the first four; the
    next batch numbers its entries from the shortened length 17 and issues
    ["3-17"], ["1-18"], ["2-19"] a second time. *)
Theorem C1_ids_collide_after_trim :
  let w :=
    run (sixBatches ++ [Trim (mkViewport 4000%Q 800 20000)] ++ oneBatch)
      (mount 0) in
  map id (visibleItems w)
  = ["2-4"; "3-5"; "1-6"; "2-7"; "3-8"; "1-9"; "2-10"; "3-11"; "1-12";
     "2-13"; "3-14"; "1-15"; "2-16"; "3-17"; "1-18"; "2-19"; "3-20";
     "3-17"; "1-18"; "2-19"]
  /\ ~ NoDup (map id (visibleItems w)).
Proof.
  intros w.
  assert (E : map id (visibleItems w)
              = ["2-4"; "3-5"; "1-6"; "2-7"; "3-8"; "1-9"; "2-10"; "3-11";
                 "1-12"; "2-13"; "3-14"; "1-15"; "2-16"; "3-17"; "1-18";
                 "2-19"; "3-20"; "3-17"; "1-18"; "2-19"])
    by (vm_compute; reflexivity).
  split; [exact E |].
  rewrite E. intros Hnd. apply distinctb_NoDup in Hnd.
  vm_compute in Hnd. discriminate Hnd.
Qed.

(** ** The throttle utility *)

Section ThrottleFacts.

Context {A : Type}.
Variable wait : Z.

Lemma throttle_run_cons (e : Throttle.event A) (es : list (Throttle.event A))
    (s : Throttle.state A) :
  Throttle.run wait (e :: es) s
  = (fst (Throttle.run wait es (fst (Throttle.step wait e s))),
     snd (Throttle.step wait e s)
     ++ snd (Throttle.run wait es (fst (Throttle.step wait e s)))).
Proof.
  cbn [Throttle.run]. destruct (Throttle.step wait e s) as [s' out].
  cbn [fst snd]. now destruct (Throttle.run wait es s').
Qed.

(** Leading edge: a call at or after the end of the window runs [func] at
    once with its own arguments and cancels a pending timer. *)
Lemma call_after_window (s : Throttle.state A) (now : Z) (args : A) :
  (Throttle.previous s + wait <= now)%Z ->
  Throttle.call wait now args s
  = (Throttle.mkState None now, [(now, args)]).
Proof.
  intros Hnow. unfold Throttle.call.
  destruct (Z.leb_spec (wait - (now - Throttle.previous s)) 0) as [_ | Hgt];
    [reflexivity | lia].
Qed.

(** A call inside the window with no timer pending arms one, due at the
    end of the window and closing over the call's arguments. *)
Lemma call_in_window_arms (s : Throttle.state A) (now : Z) (args : A) :
  Throttle.timeout s = None ->
  Throttle.in_window wait s now ->
  Throttle.call wait now args s
  = (Throttle.mkState (Some ((Throttle.previous s + wait)%Z, args))
       (Throttle.previous s), []).
Proof.
  intros Hnone [Hlo Hhi]. unfold Throttle.call.
  destruct (Z.leb_spec (wait - (now - Throttle.previous s)) 0) as [Hle | _];
    [lia |].
  rewrite Z.gtb_ltb.
  destruct (Z.ltb_spec wait (wait - (now - Throttle.previous s))) as [Hlt | _];
    [lia |].
  cbn [orb]. rewrite Hnone.
  replace (now + (wait - (now - Throttle.previous s)))%Z
    with (Throttle.previous s + wait)%Z by lia.
  reflexivity.
Qed.

(** A call inside the window while a timer is pending does nothing. *)
Lemma call_in_window_dropped (s : Throttle.state A) (now : Z) (args : A)
    (pending : Z * A) :
  Throttle.timeout s = Some pending ->
  Throttle.in_window wait s now ->
  Throttle.call wait now args s = (s, []).
Proof.
  intros Hsome [Hlo Hhi]. unfold Throttle.call.
  destruct (Z.leb_spec (wait - (now - Throttle.previous s)) 0) as [Hle | _];
    [lia |].
  rewrite Z.gtb_ltb.
  destruct (Z.ltb_spec wait (wait - (now - Throttle.previous s))) as [Hlt | _];
    [lia |].
  cbn [orb]. now rewrite Hsome.
Qed.

Lemma burst_dropped (s : Throttle.state A) (pending : Z * A)
    (cs : list (Z * A)) :
  Throttle.timeout s = Some pending ->
  Forall (fun c => Throttle.in_window wait s (fst c)) cs ->
  Throttle.run wait (calls cs) s = (s, []).
Proof.
  intros Hsome Hcs. induction Hcs as [| c cs Hc _ IH]; [reflexivity |].
  cbn [calls map]. rewrite throttle_run_cons. cbn [Throttle.step].
  rewrite (call_in_window_dropped s _ _ pending Hsome Hc). cbn [fst snd app].
  fold (calls cs). now rewrite IH.
Qed.

(** Trailing edge: the first call of a burst inside the window is the one
    the timer executes; the rest of the burst leaves no trace. *)
Lemma burst_then_timer (s : Throttle.state A) (now : Z) (args : A)
    (later : list (Z * A)) (fireAt : Z) :
  Throttle.timeout s = None ->
  Throttle.in_window wait s now ->
  Forall (fun c => Throttle.in_window wait s (fst c)) later ->
  Throttle.run wait
    (Throttle.Call now args :: calls later ++ [Throttle.TimerFires fireAt]) s
  = (Throttle.mkState None fireAt, [(fireAt, args)]).
Proof.
  intros Hnone Hnow Hlater.
  rewrite throttle_run_cons. cbn [Throttle.step].
  rewrite (call_in_window_arms s now args Hnone Hnow). cbn [fst snd app].
  set (armed := Throttle.mkState _ _).
  assert (Hrun : forall es1 es2 (s0 : Throttle.state A),
             Throttle.run wait (es1 ++ es2) s0
             = (fst (Throttle.run wait es2 (fst (Throttle.run wait es1 s0))),
                snd (Throttle.run wait es1 s0)
                ++ snd (Throttle.run wait es2
                          (fst (Throttle.run wait es1 s0))))).
  { induction es1 as [| e es1 IH]; intros es2 s0.
    - cbn [app Throttle.run fst snd]. now destruct (Throttle.run wait es2 s0).
    - cbn [app]. rewrite !throttle_run_cons, IH. cbn [fst snd].
      now rewrite app_assoc. }
  rewrite Hrun.
  rewrite (burst_dropped armed (Throttle.previous s + wait, args)%Z later);
    [| reflexivity | exact Hlater].
  reflexivity.
Qed.

(** One event either executes [func] once, no earlier than the end of the
    window, or executes nothing and leaves the window as it was. *)
Lemma step_executes_or_waits (e : Throttle.event A) (s : Throttle.state A)
    (clock : Z) :
  (Throttle.previous s <= clock)%Z ->
  (forall due a, Throttle.timeout s = Some (due, a) ->
                 due = (Throttle.previous s + wait)%Z) ->
  (clock <= Throttle.time_of e)%Z ->
  Throttle.enabled e s = true ->
  (exists a,
      (Throttle.previous s + wait <= Throttle.time_of e)%Z
      /\ Throttle.step wait e s
         = (Throttle.mkState None (Throttle.time_of e),
            [(Throttle.time_of e, a)]))
  \/ (snd (Throttle.step wait e s) = []
      /\ Throttle.previous (fst (Throttle.step wait e s))
         = Throttle.previous s
      /\ forall due a,
           Throttle.timeout (fst (Throttle.step wait e s)) = Some (due, a) ->
           due = (Throttle.previous s + wait)%Z).
Proof.
  intros Hprev Hdue Hclock Hen.
  destruct e as [now args | now]; cbn [Throttle.time_of Throttle.step] in *.
  - destruct (Z_le_gt_dec (Throttle.previous s + wait) now) as [Hlate | Hin].
    + left. exists args. split; [exact Hlate |]. now apply call_after_window.
    + right.
      assert (Hwin : Throttle.in_window wait s now)
        by (unfold Throttle.in_window; lia).
      destruct (Throttle.timeout s) as [pending |] eqn:Ht.
      * rewrite (call_in_window_dropped s now args pending Ht Hwin).
        cbn [fst snd]. rewrite Ht. auto.
      * rewrite (call_in_window_arms s now args Ht Hwin).
        cbn [fst snd Throttle.previous Throttle.timeout].
        repeat split. intros due a [= <- _]. reflexivity.
  - left. cbn [Throttle.enabled] in Hen. unfold Throttle.fire.
    destruct (Throttle.timeout s) as [[due a] |]; [| discriminate].
    apply Z.leb_le in Hen. specialize (Hdue due a eq_refl).
    exists a. split; [lia | reflexivity].
Qed.

(** Executions are at least [wait] apart, and none is earlier than
    [previous + wait]. *)
Lemma run_spaced (es : list (Throttle.event A)) :
  forall (s : Throttle.state A) (clock : Z),
    (Throttle.previous s <= clock)%Z ->
    (forall due a, Throttle.timeout s = Some (due, a) ->
                   due = (Throttle.previous s + wait)%Z) ->
    Throttle.admissible wait clock s es = true ->
    spaced wait (map fst (snd (Throttle.run wait es s)))
    /\ Forall (fun t => (Throttle.previous s + wait <= t)%Z)
         (map fst (snd (Throttle.run wait es s))).
Proof.
  induction es as [| e es IH]; intros s clock Hprev Hdue Hadm.
  { split; constructor. }
  cbn [Throttle.admissible] in Hadm.
  apply andb_prop in Hadm. destruct Hadm as [Hadm Hrest].
  apply andb_prop in Hadm. destruct Hadm as [Hclock Hen].
  apply Z.leb_le in Hclock.
  rewrite throttle_run_cons. cbn [snd].
  destruct (step_executes_or_waits e s clock Hprev Hdue Hclock Hen)
    as [(a & Hlate & Hstep) | (Hout & Hsame & Hdue')].
  - rewrite Hstep in Hrest |- *. cbn [fst snd app map] in Hrest |- *.
    destruct (IH (Throttle.mkState None (Throttle.time_of e))
                (Throttle.time_of e)) as [Hs Hf];
      [cbn; lia | cbn; discriminate | exact Hrest |].
    cbn [Throttle.previous] in Hf.
    split.
    + constructor; assumption.
    + constructor; [exact Hlate |].
      eapply Forall_impl; [| exact Hf]. cbn. intros t Ht. lia.
  - rewrite Hout. cbn [app].
    destruct (IH (fst (Throttle.step wait e s)) (Throttle.time_of e))
      as [Hs Hf].
    + rewrite Hsame. lia.
    + rewrite Hsame. exact Hdue'.
    + exact Hrest.
    + rewrite Hsame in Hf. now split.
Qed.

End ThrottleFacts.

(** C3, as the code has it.  With the cooldown of 1000 time-units, a clock
    that never goes back and timers that run no earlier than due: any two
    executions of the wrapped function are at least 1000 apart; a call at or
    after the end of the window executes at once; a call inside the window
    with no timer pending arms one timer due at the end of the window, and
    when that timer runs it executes the wrapped function once with the
    arguments of that first call, the later calls of the window having been
    dropped. *)
Theorem C3_throttle_defers_first_call_of_window {A : Type} :
  (forall (es : list (Throttle.event A)) (start : Z),
      (0 <= start)%Z ->
      Throttle.admissible trimCooldown start Throttle.init es = true ->
      spaced trimCooldown
        (map fst (snd (Throttle.run trimCooldown es Throttle.init))))
  /\ (forall (s : Throttle.state A) (now : Z) (args : A),
        (Throttle.previous s + trimCooldown <= now)%Z ->
        Throttle.call trimCooldown now args s
        = (Throttle.mkState None now, [(now, args)]))
  /\ (forall (s : Throttle.state A) (now : Z) (args : A)
             (later : list (Z * A)) (fireAt : Z),
        Throttle.timeout s = None ->
        Throttle.in_window trimCooldown s now ->
        Forall (fun c => Throttle.in_window trimCooldown s (fst c)) later ->
        Throttle.call trimCooldown now args s
        = (Throttle.mkState
             (Some ((Throttle.previous s + trimCooldown)%Z, args))
             (Throttle.previous s), [])
        /\ Throttle.run trimCooldown
             (Throttle.Call now args :: calls later
              ++ [Throttle.TimerFires fireAt]) s
           = (Throttle.mkState None fireAt, [(fireAt, args)])).
Proof.
  split; [| split].
  - intros es start Hstart Hadm.
    destruct (run_spaced trimCooldown es Throttle.init start)
      as [Hspaced _];
      [exact Hstart | discriminate | exact Hadm | exact Hspaced].
  - intros s now args. apply call_after_window.
  - intros s now args later fireAt Hnone Hnow Hlater. split.
    + now apply call_in_window_arms.
    + now apply burst_then_timer.
Qed.

Lemma C3_throttle_defers_first_call_of_window_witness :
  spaced trimCooldown
    (map fst (snd (Throttle.run trimCooldown scrollBurst Throttle.init)))
  /\ Throttle.call trimCooldown 5000000 "scroll-1" Throttle.init
     = (Throttle.mkState None 5000000, [(5000000%Z, "scroll-1")])
  /\ Throttle.run trimCooldown
       (Throttle.Call 5000100 "scroll-2"
        :: calls [(5000200%Z, "scroll-3")] ++ [Throttle.TimerFires 5001000])
       (Throttle.mkState None 5000000)
     = (Throttle.mkState None 5001000, [(5001000%Z, "scroll-2")]).
Proof.
  destruct (@C3_throttle_defers_first_call_of_window string)
    as (Hspaced & Hlead & Htrail).
  split; [apply (Hspaced scrollBurst 0%Z); [lia | reflexivity] |].
  split; [apply Hlead; vm_compute; discriminate |].
  apply Htrail.
  - reflexivity.
  - unfold Throttle.in_window, trimCooldown. cbn. lia.
  - repeat constructor; unfold Throttle.in_window, trimCooldown; cbn; lia.
Defined.

(** C3, as the specification words it, fails: of three calls in one window
    the timer executes the wrapped function with the arguments of the second
    call, which armed it, not with those of the third and latest; so the
    deferred execution does not in general carry the latest arguments. *)
Lemma C3_latest_arguments_counterexample :
  Throttle.admissible trimCooldown 0 Throttle.init scrollBurst = true
  /\ snd (Throttle.run trimCooldown scrollBurst Throttle.init)
     = [(5000000%Z, "scroll-1"); (5001000%Z, "scroll-2")]
  /\ snd (Throttle.run trimCooldown scrollBurst Throttle.init)
     <> [(5000000%Z, "scroll-1"); (5001000%Z, "scroll-3")]
  /\ ~ (forall (s : Throttle.state string) (now : Z) (args : string)
               (later : list (Z * string)) (fireAt : Z),
          Throttle.timeout s = None ->
          Throttle.in_window trimCooldown s now ->
          Forall (fun c => Throttle.in_window trimCooldown s (fst c)) later ->
          snd (Throttle.run trimCooldown
                 (Throttle.Call now args :: calls later
                  ++ [Throttle.TimerFires fireAt]) s)
          = [(fireAt, latest_args args later)]).
Proof.
  split; [reflexivity |].
  split; [reflexivity |].
  split; [vm_compute; discriminate |].
  intros Hlatest.
  specialize (Hlatest (Throttle.mkState None 5000000) 5000100%Z "scroll-2"
                [(5000200%Z, "scroll-3")] 5001000%Z eq_refl).
  assert (Hwin : Throttle.in_window trimCooldown
                   (Throttle.mkState (A := string) None 5000000) 5000100)
    by (unfold Throttle.in_window, trimCooldown; cbn; lia).
  assert (Hwin' : Throttle.in_window trimCooldown
                    (Throttle.mkState (A := string) None 5000000) 5000200)
    by (unfold Throttle.in_window, trimCooldown; cbn; lia).
  assert (Hlater : Forall
                     (fun c : Z * string =>
                        Throttle.in_window trimCooldown
                          (Throttle.mkState (A := string) None 5000000)
                          (fst c))
                     [(5000200%Z, "scroll-3")])
    by (constructor; [exact Hwin' | constructor]).
  specialize (Hlatest Hwin Hlater).
  vm_compute in Hlatest. discriminate Hlatest.
Qed.

(** * Further properties of the component *)

(** ** Background selection: overscroll *)

(** X2.  Offsets outside the scrollable range are clamped: at or above the
    top (offset [<= 0], as in elastic overscroll) the index is 0, at or
    below the bottom (offset [>= H]) it is the last one, [N] being
    represented exactly (an array length is below 2^32, so below 2^53). *)
Theorem background_index_overscroll (bgs : list BackgroundImage)
    (vp : Viewport) (y : Q) (cur : Z) :
  let H := (doc_scrollHeight vp - win_innerHeight vp)%Z in
  let N := Z.of_nat (List.length bgs) in
  (0 < H)%Z -> (1 <= N)%Z ->
  ((y <= 0)%Q -> selectBackground bgs vp y cur = 0%Z)
  /\ ((N < 2 ^ 53)%Z -> (inject_Z H <= y)%Q ->
      selectBackground bgs vp y cur = (N - 1)%Z).
Proof.
  intros H N HH HN.
  assert (Hn : (1 <= List.length bgs)%nat) by lia.
  rewrite selectBackground_clamped by (fold H; lia). fold H.
  pose proof (clampedIndex_range (List.length bgs) H y Hn) as Hr.
  split; [intros Hy | intros Hrep Hy].
  - pose proof (clampedIndex_mono (List.length bgs) H y 0 HH Hy) as Hm.
    rewrite clampedIndex_top in Hm. lia.
  - pose proof (clampedIndex_mono (List.length bgs) H (inject_Z H) y HH Hy)
      as Hm.
    rewrite clampedIndex_bottom in Hm by (fold N; lia). fold N in Hr. lia.
Qed.

Lemma background_index_overscroll_witness :
  let vp := mkViewport 0%Q 800 3800 in
  selectBackground backgroundImages vp (-40)%Q 2 = 0%Z
  /\ selectBackground backgroundImages vp 3050%Q 0 = 2%Z.
Proof.
  intros vp.
  destruct (background_index_overscroll backgroundImages vp (-40)%Q 2)
    as [Htop _]; [cbn; lia | cbn; lia |].
  destruct (background_index_overscroll backgroundImages vp 3050%Q 0)
    as [_ Hbot]; [cbn; lia | cbn; lia |].
  split; [apply Htop | apply Hbot; [cbn; lia |]]; unfold Qle; cbn; lia.
Defined.

(** The existence check of line 97 keeps every stored index inside the
    list. *)
Lemma backgroundEffect_valid (bgs : list BackgroundImage) (vp : Viewport)
    (y : Q) (cur idx : Z) :
  backgroundEffect bgs vp y cur = Some idx ->
  exists bg, js_index bgs idx = Some bg.
Proof.
  unfold backgroundEffect.
  destruct (List.length bgs =? 0)%nat; [discriminate |].
  destruct (doc_scrollHeight vp - win_innerHeight vp <=? 0)%Z; [discriminate |].
  destruct (negb _); cbn [andb]; [| discriminate].
  destruct (js_index bgs _) as [bg |] eqn:E; cbn [truthy]; [| discriminate].
  intros [= <-]. now exists bg.
Qed.

Lemma step_keeps_background_valid (e : event) (w : World) :
  (exists bg, js_index backgroundImages (currentBgIndex w) = Some bg) ->
  exists bg, js_index backgroundImages (currentBgIndex (step e w)) = Some bg.
Proof.
  intros Hw. destruct e as [b | d | vp | vp | | | i vp]; cbn [step].
  - unfold onIntersection, loadMoreItems.
    destruct (observing w), b, (observerSees w); exact Hw.
  - unfold elapse.
    set (w0 := setClockAndTimers _ _ w).
    assert (H0 : currentBgIndex w0 = currentBgIndex w) by reflexivity.
    rewrite <- H0 in Hw. clearbody w0. clear H0.
    revert w0 Hw.
    induction (filter _ (loadTimers w)) as [| x l IH]; intros w0 Hw;
      [exact Hw |].
    cbn [fold_left]. apply IH. exact Hw.
  - unfold onScroll. destruct (mounted w); [| exact Hw].
    cbn [currentBgIndex]. unfold selectBackground.
    destruct (backgroundEffect _ _ _ _) as [idx |] eqn:E; [| exact Hw].
    eapply backgroundEffect_valid, E.
  - unfold onTrim, runTrimHandler.
    destruct (handleMemoryOptimization _ vp); exact Hw.
  - exact Hw.
  - unfold rerender. destruct (mounted w); exact Hw.
  - unfold onStaleTrim, runTrimHandler.
    destruct (nth_error _ i) as [seen |]; [| exact Hw].
    destruct (handleMemoryOptimization seen vp); exact Hw.
Qed.

(** X3.  Along every run from mount the stored background index is a valid
    position of [backgroundImages], so the background layer is always
    rendered: it shows the selected image, shifted by half the scroll
    offset. *)
Theorem background_layer_always_rendered (es : list event) (t : Z) :
  let w := run es (mount t) in
  (0 <= currentBgIndex w < Z.of_nat (List.length backgroundImages))%Z
  /\ exists bg,
       js_index backgroundImages (currentBgIndex w) = Some bg
       /\ view_background (render w)
          = Some (mkBackgroundLayer (bg_image bg) (scrollY w * (1 # 2))%Q).
Proof.
  intros w.
  assert (Hrun : forall w0,
             (exists bg,
                 js_index backgroundImages (currentBgIndex w0) = Some bg) ->
             exists bg,
               js_index backgroundImages (currentBgIndex (run es w0))
               = Some bg).
  { induction es as [| e es IH]; intros w0 Hw0; [exact Hw0 |].
    apply IH, step_keeps_background_valid, Hw0. }
  destruct (Hrun (mount t)) as [bg Hbg]; [now eexists |].
  fold w in Hbg. split.
  - unfold js_index in Hbg.
    destruct (Z.ltb_spec (currentBgIndex w) 0) as [Hneg | Hpos];
      [discriminate |].
    assert (Hlt : (Z.to_nat (currentBgIndex w)
                   < List.length backgroundImages)%nat)
      by (apply nth_error_Some; congruence).
    lia.
  - exists bg. split; [exact Hbg |].
    unfold render, renderBackground. cbn [view_background].
    now rewrite Hbg.
Qed.

(** ** Pagination: what a run without trim passes looks like *)

Lemma renderCards_keys (items : list GalleryItem) :
  map card_key (renderCards items) = map id items.
Proof.
  unfold renderCards. rewrite map_map. cbn [renderCard card_key].
  generalize 0%nat as start.
  induction items as [| item items IH]; intros start; [reflexivity |].
  cbn [List.length seq combine map snd]. now rewrite IH.
Qed.

(** X4.  While no trim pass has run, the keys React receives for the cards
    are pairwise distinct. *)
Theorem card_keys_distinct_without_trim (es : list event) (t : Z) :
  no_trim es = true ->
  NoDup (map card_key (view_cards (render (run es (mount t))))).
Proof.
  intros Hes. unfold render. cbn [view_cards].
  rewrite renderCards_keys. now apply ids_distinct_without_trim.
Qed.

Lemma card_keys_distinct_without_trim_witness :
  NoDup (map card_key (view_cards (render (run sixBatches (mount 0))))).
Proof. apply card_keys_distinct_without_trim. reflexivity. Defined.

Lemma callbacks_keep_cycle (due : list Z) (w : World) :
  (exists k, visibleItems w = grown (3 + 3 * k)) ->
  exists k,
    visibleItems (fold_left (fun w' _ => loadTimerCallback w') due w)
    = grown (3 + 3 * k).
Proof.
  revert w. induction due as [| d due IH]; intros w Hw; [exact Hw |].
  cbn [fold_left]. apply IH. destruct Hw as (k & E).
  exists (S k). unfold loadTimerCallback.
  cbn [visibleItems setIsLoading setVisibleItems].
  rewrite E, appendBatch_grown by lia. f_equal. lia.
Qed.

Lemma run_keeps_cycle (es : list event) (w : World) :
  no_trim es = true ->
  (exists k, visibleItems w = grown (3 + 3 * k)) ->
  exists k, visibleItems (run es w) = grown (3 + 3 * k).
Proof.
  revert w. induction es as [| e es IH]; intros w Hes Hw; [exact Hw |].
  unfold no_trim in Hes. cbn [forallb] in Hes.
  apply andb_prop in Hes. destruct Hes as [He Hes].
  apply (IH _ Hes).
  destruct e as [b | d | vp | vp | | | i vp]; cbn [step].
  - unfold onIntersection, loadMoreItems.
    destruct (observing w), b, (observerSees w); exact Hw.
  - unfold elapse. apply callbacks_keep_cycle. exact Hw.
  - unfold onScroll. destruct (mounted w); exact Hw.
  - discriminate He.
  - exact Hw.
  - unfold rerender. destruct (mounted w); exact Hw.
  - discriminate He.
Qed.




(** X6.  Whatever the length of the list, the three entries of a batch come
    from the three source entries, each used once: the batch shows every
    picture of the source exactly once. *)
Theorem batch_uses_each_source_once (prev : list GalleryItem) :
  exists newItems,
    appendBatch prev = Some (prev ++ newItems)
    /\ Permutation (map image newItems) (map image galleryItems)
    /\ Permutation (map title newItems) (map title galleryItems).
Proof.
  destruct (pushItems_batch (List.length prev))
    as (s0 & s1 & s2 & H0 & H1 & H2 & H).
  eexists. split; [unfold appendBatch; rewrite H; reflexivity |].
  rewrite (Nat.Div0.add_mod _ 1 3) in H1.
  rewrite (Nat.Div0.add_mod _ 2 3) in H2.
  assert (Hlt : (List.length prev mod 3 < 3)%nat)
    by (apply Nat.mod_upper_bound; discriminate).
  destruct (List.length prev mod 3) as [|[|[|r]]]; [| | | lia];
    cbn in H0, H1, H2;
    injection H0 as <-; injection H1 as <-; injection H2 as <-;
    cbn [map withSuffixedId image title galleryItems].
  - split; apply Permutation_refl.
  - split; symmetry;
      apply (Permutation_cons_append [_; _]).
  - split; apply (Permutation_cons_append [_; _]).
Qed.

(** ** Pagination: timers *)

Lemma filter_partition_length {A : Type} (f : A -> bool) (l : list A) :
  (List.length (filter f l) + List.length (filter (fun x => negb (f x)) l)
   = List.length l)%nat.
Proof.
  induction l as [| x l IH]; [reflexivity |].
  cbn [filter]. destruct (f x); cbn [negb List.length]; lia.
Qed.

Lemma callbacks_keep_timers (due : list Z) (w : World) :
  let w' := fold_left (fun w0 _ => loadTimerCallback w0) due w in
  loadTimers w' = loadTimers w /\ clock w' = clock w
  /\ mounted w' = mounted w /\ observing w' = observing w
  /\ scrollY w' = scrollY w /\ currentBgIndex w' = currentBgIndex w
  /\ List.length (visibleItems w')
     = (List.length (visibleItems w) + 3 * List.length due)%nat
  /\ (due <> [] -> isLoading w' = false)
  /\ (due = [] -> isLoading w' = isLoading w).
Proof.
  revert w. induction due as [| d due IH]; intros w; cbn [fold_left].
  - repeat split; try reflexivity; try (cbn; lia). congruence.
  - destruct (IH (loadTimerCallback w))
      as (Ht & Hc & Hm & Ho & Hs & Hb & Hl & Hload & Hsame).
    repeat split; try assumption.
    + rewrite Hl. unfold loadTimerCallback.
      cbn [visibleItems setIsLoading setVisibleItems List.length].
      destruct (appendBatch_total (visibleItems w)) as (newItems & -> & Hn).
      rewrite length_app. lia.
    + intros _. destruct due as [| d' due']; [now rewrite Hsame |].
      apply Hload. discriminate.
    + discriminate.
Qed.

Lemma step_keeps_timers_near (e : event) (w : World) :
  Forall (fun due => (due <= clock w + loadDelay)%Z) (loadTimers w) ->
  Forall (fun due => (due <= clock (step e w) + loadDelay)%Z)
    (loadTimers (step e w)).
Proof.
  intros Hw. destruct e as [b | d | vp | vp | | | i vp]; cbn [step].
  - unfold onIntersection, loadMoreItems.
    destruct (observing w), b, (observerSees w); try exact Hw.
    cbn [setClockAndTimers loadTimers clock]. apply Forall_app.
    split; [exact Hw |]. constructor; [lia | constructor].
  - unfold elapse.
    destruct (callbacks_keep_timers
                (filter (fun t => (t <=? clock w + Z.of_nat d)%Z)
                   (loadTimers w))
                (setClockAndTimers (clock w + Z.of_nat d)
                   (filter (fun t => negb (t <=? clock w + Z.of_nat d)%Z)
                      (loadTimers w)) w))
      as (Ht & Hc & _).
    rewrite Ht, Hc. cbn [setClockAndTimers loadTimers clock].
    apply Forall_forall. intros due Hin.
    apply filter_In in Hin. destruct Hin as [Hin _].
    rewrite Forall_forall in Hw. specialize (Hw due Hin). lia.
  - unfold onScroll. destruct (mounted w); exact Hw.
  - unfold onTrim, runTrimHandler.
    destruct (handleMemoryOptimization _ vp); exact Hw.
  - exact Hw.
  - unfold rerender. destruct (mounted w); exact Hw.
  - unfold onStaleTrim, runTrimHandler.
    destruct (nth_error _ i) as [seen |]; [| exact Hw].
    destruct (handleMemoryOptimization seen vp); exact Hw.
Qed.

Lemma run_keeps_timers_near (es : list event) (w : World) :
  Forall (fun due => (due <= clock w + loadDelay)%Z) (loadTimers w) ->
  Forall (fun due => (due <= clock (run es w) + loadDelay)%Z)
    (loadTimers (run es w)).
Proof.
  revert w. induction es as [| e es IH]; intros w Hw; [exact Hw |].
  apply IH, step_keeps_timers_near, Hw.
Qed.

(** [isLoading] is set together with a timer, and every callback clears
    it. *)
Lemma step_keeps_loading_timed (e : event) (w : World) :
  (isLoading w = true -> loadTimers w <> []) ->
  isLoading (step e w) = true -> loadTimers (step e w) <> [].
Proof.
  intros Hw. destruct e as [b | d | vp | vp | | | i vp]; cbn [step].
  - unfold onIntersection, loadMoreItems.
    destruct (observing w), b, (observerSees w); try exact Hw.
    cbn [setClockAndTimers loadTimers]. intros _ E.
    now apply app_eq_nil in E.
  - unfold elapse.
    set (now := (clock w + Z.of_nat d)%Z).
    destruct (callbacks_keep_timers
                (filter (fun t => (t <=? now)%Z) (loadTimers w))
                (setClockAndTimers now
                   (filter (fun t => negb (t <=? now)%Z) (loadTimers w)) w))
      as (Ht & _ & _ & _ & _ & _ & _ & Hload & Hsame).
    cbn zeta in Ht, Hload, Hsame. rewrite Ht.
    cbn [setClockAndTimers loadTimers].
    destruct (filter (fun t => (t <=? now)%Z) (loadTimers w)) as [| x due]
      eqn:Hdue.
    + rewrite (Hsame eq_refl). cbn [setClockAndTimers isLoading].
      intros Hl. specialize (Hw Hl).
      pose proof (filter_partition_length (fun t => (t <=? now)%Z)
                    (loadTimers w)) as Hpart.
      rewrite Hdue in Hpart. cbn [List.length] in Hpart.
      intros E. rewrite E in Hpart. cbn [List.length] in Hpart.
      destruct (loadTimers w); [now apply Hw | discriminate Hpart].
    + rewrite Hload by discriminate. discriminate.
  - unfold onScroll. destruct (mounted w); exact Hw.
  - unfold onTrim, runTrimHandler.
    destruct (handleMemoryOptimization _ vp); exact Hw.
  - exact Hw.
  - unfold rerender. destruct (mounted w); exact Hw.
  - unfold onStaleTrim, runTrimHandler.
    destruct (nth_error _ i) as [seen |]; [| exact Hw].
    destruct (handleMemoryOptimization seen vp); exact Hw.
Qed.

Lemma run_keeps_loading_timed (es : list event) (w : World) :
  (isLoading w = true -> loadTimers w <> []) ->
  isLoading (run es w) = true -> loadTimers (run es w) <> [].
Proof.
  revert w. induction es as [| e es IH]; intros w Hw; [exact Hw |].
  apply IH, step_keeps_loading_timed, Hw.
Qed.

(** X7.  A batch never stays pending: from any state reached from mount,
    mounted or not, once 500 time-units or more have passed no load timer is
    left and [isLoading] is cleared. *)
Theorem pending_batch_lands_within_delay (es : list event) (t : Z)
    (d : nat) :
  (500 <= d)%nat ->
  let w := run (es ++ [Elapse d]) (mount t) in
  isLoading w = false /\ loadTimers w = [].
Proof.
  intros Hd w. subst w. rewrite run_app.
  pose proof (run_keeps_loading_timed es (mount t)) as Htimed.
  pose proof (run_keeps_timers_near es (mount t) (Forall_nil _)) as Hnear.
  set (w1 := run es (mount t)) in *.
  unfold run. cbn [fold_left step]. unfold elapse.
  set (now := (clock w1 + Z.of_nat d)%Z).
  assert (Hall : forall due, In due (loadTimers w1) -> (due <=? now)%Z = true).
  { intros due Hin. rewrite Forall_forall in Hnear.
    specialize (Hnear due Hin). unfold loadDelay in Hnear.
    apply Z.leb_le. unfold now. lia. }
  assert (Hdue : filter (fun t0 => (t0 <=? now)%Z) (loadTimers w1)
                 = loadTimers w1).
  { clear -Hall. induction (loadTimers w1) as [| x l IH]; [reflexivity |].
    cbn [filter]. rewrite (Hall x) by now left.
    f_equal. apply IH. intros due Hin. apply Hall. now right. }
  assert (Hlater : filter (fun t0 => negb (t0 <=? now)%Z) (loadTimers w1)
                   = []).
  { clear -Hall. induction (loadTimers w1) as [| x l IH]; [reflexivity |].
    cbn [filter]. rewrite (Hall x) by now left. cbn [negb].
    apply IH. intros due Hin. apply Hall. now right. }
  rewrite Hdue, Hlater.
  destruct (callbacks_keep_timers (loadTimers w1)
              (setClockAndTimers now [] w1))
    as (Ht & _ & _ & _ & _ & _ & _ & Hload & Hsame).
  cbn zeta in Ht, Hload, Hsame.
  split; [| now rewrite Ht].
  destruct (loadTimers w1) as [| x l] eqn:E.
  - rewrite (Hsame eq_refl). cbn [setClockAndTimers isLoading].
    destruct (isLoading w1) eqn:Hl; [| reflexivity].
    exfalso. apply Htimed; [discriminate | reflexivity | reflexivity].
  - apply Hload. discriminate.
Qed.

Lemma pending_batch_lands_within_delay_witness :
  let w := run ([Intersect true; Elapse 120; Unmount] ++ [Elapse 500])
             (mount 0) in
  isLoading w = false /\ loadTimers w = [].
Proof.
  apply (pending_batch_lands_within_delay
           [Intersect true; Elapse 120; Unmount] 0 500).
  lia.
Defined.

(** X8.  Whenever the loading indicator is rendered, a load timer is
    pending, in every state reached from mount: the indicator cannot stay
    on without a timer that will clear it. *)
Theorem spinner_shown_only_while_timer_pending (es : list event) (t : Z) :
  let w := run es (mount t) in
  view_spinner (render w) = true -> loadTimers w <> [].
Proof.
  intros w. unfold render. cbn [view_spinner].
  apply (run_keeps_loading_timed es (mount t)). discriminate.
Qed.

Lemma spinner_shown_only_while_timer_pending_witness :
  loadTimers (run [Intersect true; Elapse 100] (mount 0)) <> [].
Proof.
  apply (spinner_shown_only_while_timer_pending [Intersect true; Elapse 100] 0).
  reflexivity.
Defined.

(** ** After unmount *)

Lemma step_after_unmount (e : event) (w : World) :
  mounted w = false -> observing w = false ->
  let w' := step e w in
  mounted w' = false /\ observing w' = false
  /\ scrollY w' = scrollY w /\ currentBgIndex w' = currentBgIndex w
  /\ (List.length (loadTimers w') <= List.length (loadTimers w))%nat
  /\ (List.length (visibleItems w') + 3 * List.length (loadTimers w')
      <= List.length (visibleItems w) + 3 * List.length (loadTimers w))%nat.
Proof.
  intros Hm Ho.
  assert (Htrim : forall seen vp,
             let w' := runTrimHandler seen vp w in
             mounted w' = false /\ observing w' = false
             /\ scrollY w' = scrollY w /\ currentBgIndex w' = currentBgIndex w
             /\ (List.length (loadTimers w') <= List.length (loadTimers w))%nat
             /\ (List.length (visibleItems w')
                 + 3 * List.length (loadTimers w')
                 <= List.length (visibleItems w)
                    + 3 * List.length (loadTimers w))%nat).
  { intros seen vp. unfold runTrimHandler.
    destruct (handleMemoryOptimization seen vp) as [updater |] eqn:E;
      [| cbn; repeat split; auto].
    unfold handleMemoryOptimization in E.
    destruct (20 <? seen)%nat; [| discriminate].
    injection E as <-. cbn. repeat split; auto.
    unfold trimUpdater, slice_from. rewrite length_skipn. lia. }
  destruct e as [b | d | vp | vp | | | i vp]; cbn [step].
  - unfold onIntersection. rewrite Ho. cbn. repeat split; auto.
  - unfold elapse.
    set (now := (clock w + Z.of_nat d)%Z).
    destruct (callbacks_keep_timers
                (filter (fun t => (t <=? now)%Z) (loadTimers w))
                (setClockAndTimers now
                   (filter (fun t => negb (t <=? now)%Z) (loadTimers w)) w))
      as (Ht & _ & Hm' & Ho' & Hs & Hb & Hl & _).
    cbn zeta. rewrite Hm', Ho', Hs, Hb, Hl, Ht.
    cbn [setClockAndTimers mounted observing scrollY currentBgIndex
           visibleItems loadTimers].
    pose proof (filter_partition_length (fun t => (t <=? now)%Z)
                  (loadTimers w)) as Hpart.
    cbn beta in Hpart.
    repeat split; auto; lia.
  - unfold onScroll. rewrite Hm. cbn. repeat split; auto.
  - apply Htrim.
  - cbn. repeat split; auto.
  - unfold rerender. rewrite Hm. cbn. repeat split; auto.
  - unfold onStaleTrim.
    destruct (nth_error _ i) as [seen |]; [apply Htrim |].
    cbn. repeat split; auto.
Qed.

(** X9.  After unmount nothing is started any more: sentinel and scroll
    notifications and re-renders have no effect, the scroll offset and
    background index keep their values, no load timer is added, and the
    list grows by at most three entries per timer left at unmount. *)
Theorem nothing_starts_after_unmount (before after : list event) (t : Z) :
  let w1 := run (before ++ [Unmount]) (mount t) in
  let w2 := run after w1 in
  mounted w2 = false /\ observing w2 = false
  /\ scrollY w2 = scrollY w1 /\ currentBgIndex w2 = currentBgIndex w1
  /\ (forall b vp,
        step (Intersect b) w2 = w2 /\ step (Scroll vp) w2 = w2
        /\ step Rerender w2 = w2)
  /\ (List.length (loadTimers w2) <= List.length (loadTimers w1))%nat
  /\ (List.length (visibleItems w2) + 3 * List.length (loadTimers w2)
      <= List.length (visibleItems w1) + 3 * List.length (loadTimers w1))%nat.
Proof.
  intros w1 w2.
  assert (H1 : mounted w1 = false /\ observing w1 = false).
  { unfold w1. rewrite run_app. split; reflexivity. }
  assert (Hgen : forall es w,
             mounted w = false -> observing w = false ->
             mounted (run es w) = false /\ observing (run es w) = false
             /\ scrollY (run es w) = scrollY w
             /\ currentBgIndex (run es w) = currentBgIndex w
             /\ (List.length (loadTimers (run es w))
                 <= List.length (loadTimers w))%nat
             /\ (List.length (visibleItems (run es w))
                 + 3 * List.length (loadTimers (run es w))
                 <= List.length (visibleItems w)
                    + 3 * List.length (loadTimers w))%nat).
  { induction es as [| e es IH]; intros w Hm Ho.
    - repeat split; auto.
    - destruct (step_after_unmount e w Hm Ho)
        as (Hm' & Ho' & Hs & Hb & Ht & Hl).
      destruct (IH (step e w) Hm' Ho') as (Hm2 & Ho2 & Hs2 & Hb2 & Ht2 & Hl2).
      change (run (e :: es) w) with (run es (step e w)).
      repeat split; try assumption; try congruence; lia. }
  destruct H1 as [Hm1 Ho1].
  destruct (Hgen after w1 Hm1 Ho1) as (Hm2 & Ho2 & Hs2 & Hb2 & Ht2 & Hl2).
  fold w2 in Hm2, Ho2, Hs2, Hb2, Ht2, Hl2.
  split; [exact Hm2 |]. split; [exact Ho2 |].
  split; [exact Hs2 |]. split; [exact Hb2 |].
  split.
  { intros b vp. cbn [step]. unfold onIntersection, onScroll, rerender.
    now rewrite Ho2, Hm2. }
  split; [exact Ht2 | exact Hl2].
Qed.

(** ** The gate when the observer is in sync *)

Lemma step_in_sync (e : event) (w : World) (fresh : bool) :
  one_batch_in_flight w ->
  (observing w = true -> mounted w = true) ->
  (fresh = true -> observing w = true -> observerSees w = isLoading w) ->
  match e with
  | Intersect _ => fresh = true
  | _ => True
  end ->
  one_batch_in_flight (step e w)
  /\ (observing (step e w) = true -> mounted (step e w) = true)
  /\ (match e with
      | Intersect _ | Elapse _ => False
      | Rerender => True
      | _ => fresh = true
      end ->
      observing (step e w) = true ->
      observerSees (step e w) = isLoading (step e w)).
Proof.
  intros Hinv Hom Hsync He.
  assert (Htrim : forall seen vp,
             one_batch_in_flight (runTrimHandler seen vp w)
             /\ (observing (runTrimHandler seen vp w) = true ->
                 mounted (runTrimHandler seen vp w) = true)
             /\ (fresh = true ->
                 observing (runTrimHandler seen vp w) = true ->
                 observerSees (runTrimHandler seen vp w)
                 = isLoading (runTrimHandler seen vp w))).
  { intros seen vp. unfold runTrimHandler.
    destruct (handleMemoryOptimization seen vp); repeat split; auto. }
  destruct e as [b | d | vp | vp | | | i vp]; cbn [step].
  - split; [| split; [| intros []]].
    + unfold onIntersection. destruct (observing w) eqn:Ho; [| exact Hinv].
      destruct b; [| exact Hinv].
      rewrite (Hsync He eq_refl). unfold loadMoreItems.
      destruct Hinv as [[Hl Ht] | [Hl Ht]]; rewrite Hl; [| now right].
      right. cbn. rewrite Ht. split; [reflexivity | now eexists].
    + assert (E : observing (onIntersection b w) = observing w
                  /\ mounted (onIntersection b w) = mounted w).
      { clear. destruct w as [? ? ? ? ? o ? ? s ? ?].
        destruct o, b, s; split; reflexivity. }
      destruct E as [-> ->]. exact Hom.
  - split; [| split; [| intros []]].
    + unfold elapse.
      destruct Hinv as [[Hl Ht] | [Hl [due Ht]]]; rewrite Ht; cbn [filter].
      * left. now cbn.
      * destruct (due <=? clock w + Z.of_nat d)%Z; cbn [negb fold_left].
        -- left. now cbn.
        -- right. cbn. split; [exact Hl | now eexists].
    + unfold elapse.
      destruct (callbacks_keep_timers
                  (filter (fun t => (t <=? clock w + Z.of_nat d)%Z)
                     (loadTimers w))
                  (setClockAndTimers (clock w + Z.of_nat d)
                     (filter (fun t => negb (t <=? clock w + Z.of_nat d)%Z)
                        (loadTimers w)) w))
        as (_ & _ & Hm' & Ho' & _).
      cbn zeta in Hm', Ho'. rewrite Hm', Ho'. exact Hom.
  - unfold onScroll. destruct (mounted w) eqn:Hm.
    + repeat split; auto.
    + rewrite <- Hm in Hom. repeat split; auto.
  - apply Htrim.
  - repeat split; [exact Hinv | discriminate | discriminate].
  - unfold rerender. destruct (mounted w) eqn:Hm.
    + repeat split; auto.
    + split; [exact Hinv |]. split; intros; exfalso; intuition discriminate.
  - unfold onStaleTrim.
    destruct (nth_error _ i) as [seen |]; [apply Htrim |].
    repeat split; auto.
Qed.

Lemma run_in_sync (es : list event) :
  forall (w : World) (fresh : bool),
    one_batch_in_flight w ->
    (observing w = true -> mounted w = true) ->
    (fresh = true -> observing w = true -> observerSees w = isLoading w) ->
    triggers_in_sync fresh es = true ->
    one_batch_in_flight (run es w).
Proof.
  induction es as [| e es IH]; intros w fresh Hinv Hom Hsync Hes;
    [exact Hinv |].
  change (run (e :: es) w) with (run es (step e w)).
  destruct e as [b | d | vp | vp | | | i vp]; cbn [triggers_in_sync] in Hes.
  - apply andb_prop in Hes. destruct Hes as [Hf Hes].
    destruct (step_in_sync (Intersect b) w fresh Hinv Hom Hsync Hf)
      as (Hinv' & Hom' & _).
    apply (IH _ false Hinv' Hom'); [discriminate | exact Hes].
  - destruct (step_in_sync (Elapse d) w fresh Hinv Hom Hsync I)
      as (Hinv' & Hom' & _).
    apply (IH _ false Hinv' Hom'); [discriminate | exact Hes].
  - destruct (step_in_sync (Scroll vp) w fresh Hinv Hom Hsync I)
      as (Hinv' & Hom' & Hs').
    apply (IH _ fresh Hinv' Hom'); [exact Hs' | exact Hes].
  - destruct (step_in_sync (Trim vp) w fresh Hinv Hom Hsync I)
      as (Hinv' & Hom' & Hs').
    apply (IH _ fresh Hinv' Hom'); [exact Hs' | exact Hes].
  - destruct (step_in_sync Unmount w fresh Hinv Hom Hsync I)
      as (Hinv' & Hom' & Hs').
    apply (IH _ fresh Hinv' Hom'); [exact Hs' | exact Hes].
  - destruct (step_in_sync Rerender w fresh Hinv Hom Hsync I)
      as (Hinv' & Hom' & Hs').
    apply (IH _ true Hinv' Hom'); [intros _; now apply Hs' | exact Hes].
  - destruct (step_in_sync (StaleTrim i vp) w fresh Hinv Hom Hsync I)
      as (Hinv' & Hom' & Hs').
    apply (IH _ fresh Hinv' Hom'); [exact Hs' | exact Hes].
Qed.

(** X20.  The gate holds whenever the observer is in sync: along a run from
    mount in which every sentinel notification comes after the re-render
    that followed the last change of [isLoading], the component is idle with
    no load timer, or loading with exactly one. *)
Theorem gate_holds_when_observer_in_sync (es : list event) (t : Z) :
  triggers_in_sync true es = true ->
  let w := run es (mount t) in
  (isLoading w = false /\ loadTimers w = [])
  \/ (isLoading w = true /\ exists due, loadTimers w = [due]).
Proof.
  intros Hes w.
  apply (run_in_sync es (mount t) true); [now left | reflexivity | | exact Hes].
  reflexivity.
Qed.

Lemma gate_holds_when_observer_in_sync_witness :
  let w :=
    run [Intersect true; Rerender; Intersect true; Elapse 500; Rerender;
         Scroll (mkViewport 0 800 900); Intersect true] (mount 0) in
  (isLoading w = false /\ loadTimers w = [])
  \/ (isLoading w = true /\ exists due, loadTimers w = [due]).
Proof.
  apply (gate_holds_when_observer_in_sync
           [Intersect true; Rerender; Intersect true; Elapse 500; Rerender;
            Scroll (mkViewport 0 800 900); Intersect true] 0).
  reflexivity.
Defined.

(** ** Trim pass: edges and repetition *)

(** A handler of an earlier effect run tests the length it closed over.
    After six batches and a trim to 12 entries the registered handler, which
    saw 12, leaves the list alone; the handler that saw 21 passes the guard
    of line 155 and cuts the list to 3. *)
Lemma stale_trim_handler_example :
  let vp := mkViewport 7000%Q 800 20000 in
  let w := run (sixBatches ++ [Trim vp; Rerender]) (mount 0) in
  List.length (visibleItems w) = 12%nat
  /\ trimSees w = 12%nat
  /\ nth_error (staleTrimSees w) 0 = Some 21%nat
  /\ step (Trim vp) w = w
  /\ List.length (visibleItems (step (StaleTrim 0 vp) w)) = 3%nat.
Proof. vm_compute. repeat split. Qed.

Lemma dropCount_as_computed (vp : Viewport) :
  Z.to_nat
    (Z.max 0
       (Qfloor ((win_scrollY vp - inject_Z (win_innerHeight vp) * 2)
                / inject_Z 600)%Q))
  = Z.to_nat
      (Z.max 0
         (Qfloor
            ((win_scrollY vp - 2 * inject_Z (win_innerHeight vp)) / 600)%Q)).
Proof. now rewrite dropCount_agrees. Qed.

(** X10.  Near the top nothing is removed: while the scroll offset is below
    two viewport heights plus one item height (600), a trim pass returns the
    list unchanged whatever its length.  A negative count is cut to 0, so
    [slice] never counts from the end. *)
Theorem trim_near_top_keeps_all (items : list GalleryItem) (vp : Viewport) :
  (win_scrollY vp < 2 * inject_Z (win_innerHeight vp) + 600)%Q ->
  trimPass vp items = items.
Proof.
  intros Hy.
  destruct (Nat.le_gt_cases (List.length items) 20) as [Hshort | Hlong].
  - now apply trimPass_short.
  - rewrite trimPass_unfold by exact Hlong.
    assert (Hq : ((win_scrollY vp - inject_Z (win_innerHeight vp) * 2)
                  / inject_Z 600 < inject_Z (0 + 1))%Q).
    { apply Qlt_shift_div_r; [reflexivity |].
      change (inject_Z (0 + 1)) with 1%Q. change (inject_Z 600) with 600%Q.
      lra. }
    assert (Hfl : (Qfloor ((win_scrollY vp - inject_Z (win_innerHeight vp) * 2)
                           / inject_Z 600) < 0 + 1)%Z).
    { rewrite Zlt_Qlt. eapply Qle_lt_trans; [apply Qfloor_le | exact Hq]. }
    replace (Z.to_nat _) with 0%nat by lia. reflexivity.
Qed.

Lemma trim_near_top_keeps_all_witness :
  let items := visibleItems (run sixBatches (mount 0)) in
  trimPass (mkViewport 2199%Q 800 20000) items = items
  /\ trimPass (mkViewport 0%Q 800 20000) items = items.
Proof.
  intros items.
  split; apply trim_near_top_keeps_all; unfold Qlt; cbn; lia.
Defined.

(** X11.  A trim pass is not idempotent: the count depends on the scroll
    position only, so a second pass at the same position removes the same
    number of entries again, as long as more than 20 are left after the
    first. *)
Theorem trim_twice_drops_twice (items : list GalleryItem) (vp : Viewport) :
  let k :=
    Z.to_nat
      (Z.max 0
         (Qfloor
            ((win_scrollY vp - 2 * inject_Z (win_innerHeight vp)) / 600)%Q))
  in
  (20 < List.length items - k)%nat ->
  trimPass vp (trimPass vp items) = skipn (k + k) items
  /\ List.length (trimPass vp (trimPass vp items))
     = (List.length items - 2 * k)%nat.
Proof.
  intros k Hlen.
  assert (H1 : trimPass vp items = skipn k items).
  { rewrite trimPass_unfold by lia. now rewrite dropCount_as_computed. }
  assert (H2 : trimPass vp (skipn k items) = skipn k (skipn k items)).
  { rewrite trimPass_unfold by (rewrite length_skipn; exact Hlen).
    now rewrite dropCount_as_computed. }
  rewrite H1, H2, skipn_skipn.
  split; [reflexivity |]. rewrite length_skipn. lia.
Qed.

Lemma trim_twice_drops_twice_witness :
  let items := repeat (mkGalleryItem "1" "" "" "" "" "") 30 in
  let vp := mkViewport 4000%Q 800 20000 in
  trimPass vp (trimPass vp items) = skipn (4 + 4) items
  /\ List.length (trimPass vp (trimPass vp items)) = (30 - 2 * 4)%nat.
Proof.
  intros items vp.
  apply (trim_twice_drops_twice items vp). vm_compute. lia.
Defined.

(** ** Cards *)

Lemma nth_error_renderCards (items : list GalleryItem) (j : nat) :
  nth_error (renderCards items) j
  = option_map (fun item => renderCard item j) (nth_error items j).
Proof.
  unfold renderCards.
  assert (H : forall start,
             nth_error
               (map (fun p => renderCard (snd p) (fst p))
                  (combine (seq start (List.length items)) items)) j
             = option_map (fun item => renderCard item (start + j))
                 (nth_error items j)).
  { revert j. induction items as [| item items IH]; intros j start.
    - now destruct j.
    - cbn [List.length seq combine map fst snd].
      destruct j as [| j]; cbn [nth_error option_map].
      + now rewrite Nat.add_0_r.
      + rewrite IH. now rewrite Nat.add_succ_r. }
  apply (H 0%nat).
Qed.

Lemma mod2_is_odd (n : nat) : (n mod 2 =? 1)%nat = Nat.odd n.
Proof. now rewrite <- Nat.bit0_eqb, Nat.bit0_odd. Qed.

(** X12.  A trim pass re-numbers the cards: the item that was rendered at
    position [k + j] is rendered at position [j], with the same key and
    content, the stagger delay of position [j], and on the other side of the
    grid exactly when the number [k] of removed entries is odd. *)
Theorem trim_shifts_card_layout (items : list GalleryItem) (vp : Viewport)
    (j : nat) (c : Card) :
  let k :=
    Z.to_nat
      (Z.max 0
         (Qfloor
            ((win_scrollY vp - 2 * inject_Z (win_innerHeight vp)) / 600)%Q))
  in
  (20 < List.length items)%nat ->
  nth_error (renderCards (trimPass vp items)) j = Some c ->
  exists item,
    nth_error items (k + j) = Some item
    /\ nth_error (renderCards items) (k + j) = Some (renderCard item (k + j))
    /\ c = renderCard item j
    /\ card_key c = card_key (renderCard item (k + j))
    /\ card_animationDelay c = ((j mod 3) * 200)%nat
    /\ card_flipped c
       = xorb (Nat.odd k) (card_flipped (renderCard item (k + j))).
Proof.
  intros k Hlen Hc.
  rewrite trimPass_unfold, dropCount_as_computed in Hc by exact Hlen.
  fold k in Hc.
  rewrite nth_error_renderCards, nth_error_skipn in Hc.
  destruct (nth_error items (k + j)) as [item |] eqn:E; [| discriminate].
  cbn [option_map] in Hc. injection Hc as <-.
  exists item. split; [reflexivity |].
  split; [now rewrite nth_error_renderCards, E |].
  split; [reflexivity |]. split; [reflexivity |]. split; [reflexivity |].
  cbn [renderCard card_flipped].
  rewrite !mod2_is_odd, Nat.odd_add.
  now destruct (Nat.odd k), (Nat.odd j).
Qed.

Lemma trim_shifts_card_layout_witness :
  let items := visibleItems (run sixBatches (mount 0)) in
  let vp := mkViewport 4300%Q 800 20000 in
  exists item,
    nth_error items (4 + 0) = Some item
    /\ card_key (renderCard item 0) = "2-4"
    /\ card_flipped (renderCard item 0)
       = xorb (Nat.odd 4) (card_flipped (renderCard item (4 + 0))).
Proof.
  intros items vp.
  destruct (trim_shifts_card_layout items vp 0
              (renderCard (withSuffixedId (sourceOf 4) 4) 0))
    as (item & Hitem & _ & Hc & _ & _ & Hflip);
    [vm_compute; lia | vm_compute; reflexivity |].
  exists item. split; [exact Hitem |].
  rewrite <- Hc. split; [reflexivity | exact Hflip].
Defined.

(** ** The throttle utility on arbitrary traces *)

Section ThrottleTraces.

Context {A : Type}.
Variable wait : Z.

(** X13.  A call executes the wrapped function at once exactly when it falls
    outside the window [previous, previous + wait): at or after its end, or
    before its start, which happens when the clock has been set back.  It
    then also cancels the pending timer and opens a new window at its own
    time.  Inside the window it executes nothing. *)
Theorem throttle_call_executes_iff_outside_window (s : Throttle.state A)
    (now : Z) (args : A) :
  (snd (Throttle.call wait now args s) = [(now, args)]
   <-> (now < Throttle.previous s)%Z \/ (Throttle.previous s + wait <= now)%Z)
  /\ ((now < Throttle.previous s)%Z \/ (Throttle.previous s + wait <= now)%Z ->
      fst (Throttle.call wait now args s) = Throttle.mkState None now)
  /\ (snd (Throttle.call wait now args s) = []
      <-> (Throttle.previous s <= now < Throttle.previous s + wait)%Z).
Proof.
  unfold Throttle.call. rewrite Z.gtb_ltb.
  destruct (Z.leb_spec (wait - (now - Throttle.previous s)) 0) as [Hle | Hgt];
    destruct (Z.ltb_spec wait (wait - (now - Throttle.previous s)))
      as [Hlt | Hge]; cbn [orb fst snd];
    try destruct (Throttle.timeout s) as [pending |]; cbn [fst snd];
    repeat split; intros; try discriminate; try reflexivity; lia.
Qed.

Lemma call_without_wait (s : Throttle.state A) (now : Z) (args : A) :
  (wait <= 0)%Z ->
  Throttle.call wait now args s = (Throttle.mkState None now, [(now, args)]).
Proof.
  intros Hw. unfold Throttle.call. rewrite Z.gtb_ltb.
  destruct (Z.leb_spec (wait - (now - Throttle.previous s)) 0) as [_ | Hgt];
    [reflexivity |].
  destruct (Z.ltb_spec wait (wait - (now - Throttle.previous s)))
    as [_ | Hge]; [reflexivity | lia].
Qed.

(** X14.  With a cooldown of zero or less the wrapper does not throttle:
    every call executes the wrapped function at once, in order, and no timer
    is ever armed. *)
Theorem throttle_without_wait_runs_every_call (cs : list (Z * A))
    (s : Throttle.state A) :
  (wait <= 0)%Z ->
  snd (Throttle.run wait (calls cs) s) = cs
  /\ (cs <> [] ->
      Throttle.timeout (fst (Throttle.run wait (calls cs) s)) = None).
Proof.
  intros Hw. revert s.
  induction cs as [| [now args] cs IH]; intros s.
  - split; [reflexivity | congruence].
  - cbn [calls map fst snd]. fold (calls cs).
    rewrite throttle_run_cons. cbn [Throttle.step].
    rewrite call_without_wait by exact Hw. cbn [fst snd app].
    destruct (IH (Throttle.mkState None now)) as [Hout Hnone].
    split; [now rewrite Hout |].
    intros _. destruct cs as [| c cs']; [reflexivity |].
    apply Hnone. discriminate.
Qed.

Lemma subsequence_nil_l (l : list A) : subsequence [] l.
Proof. induction l; now constructor. Qed.

Lemma subsequence_app_l (l l1 l2 : list A) :
  subsequence l l2 -> subsequence l (l1 ++ l2).
Proof.
  intros H. induction l1; [exact H | now apply subsequence_skip].
Qed.

Lemma subsequence_insert (l l1 l2 : list A) (x : A) :
  subsequence l (l1 ++ l2) -> subsequence l (l1 ++ x :: l2).
Proof.
  revert l. induction l1 as [| y l1 IH]; intros l H; cbn [app] in *.
  - now apply subsequence_skip.
  - inversion H as [| y' k1 k2 Hk | y' k1 k2 Hk]; subst.
    + apply subsequence_skip. now apply IH.
    + apply subsequence_take. now apply IH.
Qed.

Lemma subsequence_length (l1 l2 : list A) :
  subsequence l1 l2 -> (List.length l1 <= List.length l2)%nat.
Proof. induction 1; cbn [List.length]; lia. Qed.

Lemma run_executes_subsequence (es : list (Throttle.event A)) :
  forall s : Throttle.state A,
    subsequence (map snd (snd (Throttle.run wait es s)))
      (pending_args s ++ call_args es).
Proof.
  induction es as [| e es IH]; intros s.
  { apply subsequence_nil_l. }
  rewrite throttle_run_cons. cbn [snd]. rewrite map_app.
  destruct e as [now args | now]; cbn [Throttle.step call_args flat_map app].
  - fold (call_args es). unfold Throttle.call.
    destruct ((_ <=? 0)%Z || (_ >? wait)%Z); cbn [fst snd map app].
    + apply subsequence_app_l, subsequence_take.
      apply (IH (Throttle.mkState None now)).
    + unfold pending_args at 1.
      destruct (Throttle.timeout s) as [[due p] |] eqn:Ht;
        cbn [fst snd map app].
      * apply (subsequence_insert _ [p]).
        specialize (IH s). unfold pending_args in IH. now rewrite Ht in IH.
      * apply (IH (Throttle.mkState
                     (Some ((now + (wait - (now - Throttle.previous s)))%Z,
                            args))
                     (Throttle.previous s))).
  - fold (call_args es). unfold Throttle.fire, pending_args at 1.
    destruct (Throttle.timeout s) as [[due p] |] eqn:Ht;
      cbn [fst snd map app].
    + apply subsequence_take. apply (IH (Throttle.mkState None now)).
    + specialize (IH s). unfold pending_args in IH. now rewrite Ht in IH.
Qed.

(** X15.  Whatever the trace, the wrapper only drops calls: the arguments of
    the executions, in order, are those of the calls with some left out.  No
    call is executed twice, none out of order, and there are never more
    executions than calls. *)
Theorem throttle_only_drops_calls (es : list (Throttle.event A)) :
  let execs := snd (Throttle.run wait es Throttle.init) in
  subsequence (map snd execs) (call_args es)
  /\ (List.length execs <= List.length (call_args es))%nat.
Proof.
  intros execs.
  pose proof (run_executes_subsequence es Throttle.init) as H.
  cbn [pending_args Throttle.init Throttle.timeout app] in H.
  split; [exact H |].
  apply subsequence_length in H. now rewrite length_map in H.
Qed.

Lemma last_cons_default (l : list Z) (a d : Z) : last (a :: l) d = last l a.
Proof.
  revert a d. induction l as [| b l IH]; intros a d; [reflexivity |].
  change (last (a :: b :: l) d) with (last (b :: l) d).
  now rewrite (IH b d), (IH b a).
Qed.

Lemma run_tracks_last_execution (es : list (Throttle.event A)) :
  forall s : Throttle.state A,
    (forall due a, Throttle.timeout s = Some (due, a) ->
                   due = (Throttle.previous s + wait)%Z) ->
    let s' := fst (Throttle.run wait es s) in
    Throttle.previous s'
    = last (map fst (snd (Throttle.run wait es s))) (Throttle.previous s)
    /\ forall due a, Throttle.timeout s' = Some (due, a) ->
                     due = (Throttle.previous s' + wait)%Z.
Proof.
  induction es as [| e es IH]; intros s Hs.
  { split; [reflexivity | exact Hs]. }
  rewrite throttle_run_cons. cbn [fst snd]. rewrite map_app.
  assert (Hstep :
            (exists a,
                Throttle.step wait e s
                = (Throttle.mkState None (Throttle.time_of e),
                   [(Throttle.time_of e, a)]))
            \/ (snd (Throttle.step wait e s) = []
                /\ Throttle.previous (fst (Throttle.step wait e s))
                   = Throttle.previous s
                /\ forall due a,
                     Throttle.timeout (fst (Throttle.step wait e s))
                     = Some (due, a) ->
                     due = (Throttle.previous (fst (Throttle.step wait e s))
                            + wait)%Z)).
  { destruct e as [now args | now]; cbn [Throttle.step Throttle.time_of].
    - unfold Throttle.call.
      destruct ((_ <=? 0)%Z || (_ >? wait)%Z); [left; now eexists |].
      right. destruct (Throttle.timeout s) as [pending |] eqn:Ht;
        cbn [fst snd Throttle.previous Throttle.timeout].
      + repeat split. rewrite Ht. exact Hs.
      + repeat split. intros due a [= <- _]. lia.
    - unfold Throttle.fire.
      destruct (Throttle.timeout s) as [[due a] |] eqn:Ht;
        [left; now eexists |].
      right. cbn [fst snd]. repeat split. rewrite Ht. exact Hs. }
  destruct Hstep as [[a Hexec] | (Hout & Hprev & Hinv)].
  - rewrite Hexec. cbn [fst snd map app].
    destruct (IH (Throttle.mkState None (Throttle.time_of e)))
      as [Hlast Hdue]; [cbn; discriminate |].
    cbn [Throttle.previous] in Hlast.
    split; [| exact Hdue].
    now rewrite last_cons_default.
  - rewrite Hout. cbn [map app].
    destruct (IH (fst (Throttle.step wait e s)) Hinv) as [Hlast Hdue].
    split; [| exact Hdue]. now rewrite Hlast, Hprev.
Qed.

(** X16.  Whatever the trace, [previous] holds the time of the latest
    execution (0 before the first), and a pending timer is due exactly
    [wait] after it. *)
Theorem throttle_timer_due_after_last_execution
    (es : list (Throttle.event A)) (due : Z) (args : A) :
  let s := fst (Throttle.run wait es Throttle.init) in
  let lastRun :=
    last (map fst (snd (Throttle.run wait es Throttle.init))) 0%Z in
  Throttle.previous s = lastRun
  /\ (Throttle.timeout s = Some (due, args) -> due = (lastRun + wait)%Z).
Proof.
  intros s lastRun.
  destruct (run_tracks_last_execution es Throttle.init) as [Hlast Hdue];
    [cbn; discriminate |].
  fold s in Hlast, Hdue. cbn [Throttle.init Throttle.previous] in Hlast.
  fold lastRun in Hlast.
  split; [exact Hlast |].
  intros Ht. rewrite <- Hlast. now apply (Hdue due args).
Qed.

End ThrottleTraces.

Lemma throttle_without_wait_runs_every_call_witness :
  snd (Throttle.run 0 (calls [(7%Z, "a"); (7%Z, "b"); (8%Z, "c")])
         Throttle.init)
  = [(7%Z, "a"); (7%Z, "b"); (8%Z, "c")].
Proof.
  apply (throttle_without_wait_runs_every_call 0
           [(7%Z, "a"); (7%Z, "b"); (8%Z, "c")] Throttle.init).
  lia.
Defined.

Lemma throttle_timer_due_after_last_execution_witness :
  let es := [Throttle.Call 5000000 "scroll-1";
             Throttle.Call 5000100 "scroll-2"] in
  Throttle.previous (fst (Throttle.run trimCooldown es Throttle.init))
  = 5000000%Z
  /\ Throttle.timeout (fst (Throttle.run trimCooldown es Throttle.init))
     = Some (5001000%Z, "scroll-2").
Proof.
  intros es.
  destruct (throttle_timer_due_after_last_execution trimCooldown es
              5001000%Z "scroll-2") as [Hprev Hdue].
  split; [exact Hprev | reflexivity].
Defined.

Lemma throttle_call_executes_iff_outside_window_witness :
  let s := Throttle.mkState (Some (6000%Z, "pending")) 5000 in
  snd (Throttle.call trimCooldown 4000 "after-set-back" s)
  = [(4000%Z, "after-set-back")]
  /\ fst (Throttle.call trimCooldown 4000 "after-set-back" s)
     = Throttle.mkState None 4000.
Proof.
  intros s.
  destruct (throttle_call_executes_iff_outside_window trimCooldown s 4000
              "after-set-back") as (Hexec & Hstate & _).
  split; [apply Hexec | apply Hstate]; left; cbn; lia.
Defined.

(** ** Ids across trim passes *)

(** X17.  A trim pass never creates a duplicate: if the ids are pairwise
    distinct before it, they are after it. *)
Theorem trim_keeps_ids_distinct (items : list GalleryItem) (vp : Viewport) :
  NoDup (map id items) -> NoDup (map id (trimPass vp items)).
Proof.
  intros Hnd. unfold trimPass.
  destruct (handleMemoryOptimization _ vp) as [updater |] eqn:E;
    [| exact Hnd].
  unfold handleMemoryOptimization in E.
  destruct (20 <? List.length items)%nat; [| discriminate].
  injection E as <-. unfold trimUpdater, slice_from.
  rewrite <- skipn_map.
  set (k := Z.to_nat _). clearbody k.
  rewrite <- (firstn_skipn k (map id items)) in Hnd.
  now apply NoDup_app_remove_l in Hnd.
Qed.

Lemma trim_keeps_ids_distinct_witness :
  let items := visibleItems (run sixBatches (mount 0)) in
  NoDup (map id (trimPass (mkViewport 4000%Q 800 20000) items)).
Proof.
  intros items. apply trim_keeps_ids_distinct.
  apply (ids_distinct_without_trim sixBatches 0). reflexivity.
Defined.

(** X18.  The three ids of one batch are pairwise distinct, whatever list
    the batch is appended to. *)
Theorem batch_ids_distinct (prev : list GalleryItem) :
  exists newItems,
    appendBatch prev = Some (prev ++ newItems)
    /\ NoDup (map id newItems).
Proof.
  destruct (pushItems_batch (List.length prev))
    as (s0 & s1 & s2 & H0 & H1 & H2 & H).
  eexists. split; [unfold appendBatch; rewrite H; reflexivity |].
  apply sourceOf_lookup in H0, H1, H2. subst s0 s1 s2.
  set (L := List.length prev).
  assert (Hneq : forall a b : nat,
             a <> b ->
             id (withSuffixedId (sourceOf a) a)
             <> id (withSuffixedId (sourceOf b) b)).
  { intros a b Hab E. apply Hab. cbn [withSuffixedId id] in E.
    destruct (sourceOf_id a) as [Ea | [Ea | Ea]];
      destruct (sourceOf_id b) as [Eb | [Eb | Eb]];
      rewrite Ea, Eb in E; cbn [append] in E;
      try discriminate E; injection E as E; now apply string_of_nat_inj. }
  cbn [map]. repeat constructor; cbn [In]; intros Hin;
    repeat (destruct Hin as [Hin | Hin]; [revert Hin; apply Hneq; lia |]);
    exact Hin.
Qed.

(** X19.  Appending after an effective trim repeats ids.  On a list that has
    only grown so far, a trim pass that removes [k >= 1] entries and keeps at
    least [k] makes the next batch issue again the id of the entry at
    position [n - k] of the untrimmed list, which is still present. *)
Theorem append_after_trim_repeats_ids (es : list event) (t : Z)
    (vp : Viewport) :
  let items := visibleItems (run es (mount t)) in
  let k :=
    Z.to_nat
      (Z.max 0
         (Qfloor
            ((win_scrollY vp - 2 * inject_Z (win_innerHeight vp)) / 600)%Q))
  in
  no_trim es = true ->
  (20 < List.length items)%nat ->
  (1 <= k)%nat -> (k <= List.length items - k)%nat ->
  exists result,
    appendBatch (trimPass vp items) = Some result
    /\ ~ NoDup (map id result).
Proof.
  intros items k Hes Hlen Hk1 Hk2.
  destruct (run_keeps_cycle es (mount t) Hes) as [c Hc];
    [exists 0%nat; reflexivity |].
  fold items in Hc.
  set (n := (3 + 3 * c)%nat) in *.
  assert (Hn : List.length items = n)
    by (rewrite Hc; unfold grown; now rewrite length_map, length_seq).
  assert (Htrim : trimPass vp items = map grownEntry (seq k (n - k))).
  { rewrite trimPass_unfold, dropCount_as_computed by exact Hlen.
    fold k. rewrite Hc. unfold grown.
    now rewrite skipn_map, skipn_seq. }
  set (L := (n - k)%nat) in *.
  assert (HL : List.length (trimPass vp items) = L)
    by (rewrite Htrim; now rewrite length_map, length_seq).
  destruct (pushItems_batch L) as (s0 & s1 & s2 & H0 & _ & _ & H).
  apply sourceOf_lookup in H0. subst s0.
  eexists. split.
  { unfold appendBatch. rewrite HL, H. reflexivity. }
  rewrite map_app. cbn [map]. intros Hnd.
  apply NoDup_remove_2 in Hnd. apply Hnd.
  apply in_or_app. left.
  rewrite <- (grownEntry_late L) by lia.
  apply in_map. rewrite Htrim. apply in_map.
  apply in_seq. lia.
Qed.

Lemma append_after_trim_repeats_ids_witness :
  exists result,
    appendBatch
      (trimPass (mkViewport 4000%Q 800 20000)
         (visibleItems (run sixBatches (mount 0)))) = Some result
    /\ ~ NoDup (map id result).
Proof.
  apply (append_after_trim_repeats_ids sixBatches 0
           (mkViewport 4000%Q 800 20000));
    [reflexivity | vm_compute; lia | vm_compute; lia | vm_compute; lia].
Defined.
